(** * Deno std 0.120.0 concurrency toolkit: deferred, pooledMap,
      MuxAsyncIterator and the HTTP Server core

    A shallow embedding of the four vendored modules

      - async/deferred.ts            (module [Deferred])
      - async/pool.ts                (module [Pool])
      - async/mux_async_iterator.ts  (module [Mux])
      - http/server.ts               (module [Server])

    JavaScript here is single threaded and cooperative: a piece of code runs
    from one suspension point ([await], [yield]) to the next without being
    interrupted.  [Deferred], [Pool] and [Mux] are therefore modelled as a
    state record plus an executable [step] function whose events are exactly
    those uninterrupted pieces: a call of a method up to its first [await],
    the continuation after an [await], a callback registered with [then].
    The order in which the environment settles promises is the only
    non-determinism; it is the list of events handed to [run].  The methods
    of [Server] are written in a state and exception monad over the server
    object; its two loops are fed with the list of what their [await]s give,
    and park when that list is used up.

    The first part of the file holds the embedding, the second part the
    properties proved about it. *)

From Stdlib Require Import ZArith Lia.
From stdpp Require Import base list strings.

Local Open Scope Z_scope.

(* ===================================================================== *)
(** ** async/deferred.ts *)
(* ===================================================================== *)

Module Deferred.

(** The three literals the closure variable [state] ranges over. *)
Inductive State := pending | fulfilled | rejected.

Section WithTypes.
Variables V E : Type.

(** The native promise built by [new Promise((resolve, reject) => ...)].
    Its two capability functions act on the first call only. *)
Inductive Promise :=
| Unsettled
| FulfilledWith (value : V)
| RejectedWith (reason : E).

Definition native_resolve (value : V) (p : Promise) : Promise :=
  match p with Unsettled => FulfilledWith value | _ => p end.

Definition native_reject (reason : E) (p : Promise) : Promise :=
  match p with Unsettled => RejectedWith reason | _ => p end.

(** What a caller may pass to [resolve]: [T | PromiseLike<T>]. *)
Inductive Awaitable :=
| Plain (value : V)
| WillFulfil (value : V)
| WillReject (reason : E)
| NeverSettles.

(** The object returned by [deferred()]: the closure variable [state], the
    promise itself, and the activations of the async method [resolve] that
    are parked at [await value]. *)
Record t := mk {
  state : State;
  promise : Promise;
  awaiting : list Awaitable
}.

Definition deferred : t :=
  {| state := pending; promise := Unsettled; awaiting := [] |}.

(** [async resolve(value) { await value; ... }]: the call itself runs up to
    the [await] and parks there, whatever [value] is. *)
Definition resolve (value : Awaitable) (d : t) : t :=
  {| state := state d; promise := promise d;
     awaiting := awaiting d ++ [value] |}.

(** How an activation of the async method ends. *)
Inductive Completion := Returned | Threw (reason : E).

(** The rest of [resolve] once the awaited value has settled:
    [state = "fulfilled"; resolve(value);] when it fulfilled; when it
    rejected the [await] throws and both statements are skipped. *)
Definition resolve_resume (k : nat) (d : t) : option (Completion * t) :=
  match awaiting d !! k with
  | None => None
  | Some (Plain v) | Some (WillFulfil v) =>
      Some (Returned,
            {| state := fulfilled;
               promise := native_resolve v (promise d);
               awaiting := delete k (awaiting d) |})
  | Some (WillReject r) =>
      Some (Threw r,
            {| state := state d; promise := promise d;
               awaiting := delete k (awaiting d) |})
  | Some NeverSettles => None
  end.

(** [reject(reason) { state = "rejected"; reject(reason); }] *)
Definition reject (reason : E) (d : t) : t :=
  {| state := rejected;
     promise := native_reject reason (promise d);
     awaiting := awaiting d |}.

Inductive call :=
| Resolve (value : Awaitable)
| Reject (reason : E)
| Resume (k : nat).

Definition step (c : call) (d : t) : option t :=
  match c with
  | Resolve a => Some (resolve a d)
  | Reject r => Some (reject r d)
  | Resume k => snd <$> resolve_resume k d
  end.

Fixpoint run (cs : list call) (d : t) : option t :=
  match cs with
  | [] => Some d
  | c :: cs' => step c d ≫= run cs'
  end.

(** The values the getter [state] shows after each call of [cs]. *)
Fixpoint observed (cs : list call) (d : t) : list State :=
  match cs with
  | [] => []
  | c :: cs' =>
      match step c d with
      | Some d' => state d' :: observed cs' d'
      | None => []
      end
  end.

End WithTypes.

Arguments Unsettled {V E}.
Arguments FulfilledWith {V E} value.
Arguments RejectedWith {V E} reason.
Arguments Plain {V E} value.
Arguments WillFulfil {V E} value.
Arguments WillReject {V E} reason.
Arguments NeverSettles {V E}.
Arguments Returned {E}.
Arguments Threw {E} reason.
Arguments mk {V E}.
Arguments state {V E}.
Arguments promise {V E}.
Arguments awaiting {V E}.
Arguments deferred {V E}.
Arguments resolve {V E}.
Arguments resolve_resume {V E}.
Arguments reject {V E}.
Arguments Resolve {V E}.
Arguments Reject {V E}.
Arguments Resume {V E}.
Arguments step {V E}.
Arguments run {V E}.
Arguments observed {V E}.
Arguments native_resolve {V E}.
Arguments native_reject {V E}.

End Deferred.

(* ===================================================================== *)
(** ** The [Array.prototype] methods the sources rely on *)
(* ===================================================================== *)

Module JsArray.

(** [arr.indexOf(x)]: position of the first element identical to [x],
    [-1] when there is none.  Promises are compared by identity, which the
    embedding renders as a natural number. *)
Fixpoint indexOf_from (i : Z) (arr : list nat) (x : nat) : Z :=
  match arr with
  | [] => -1
  | y :: arr' => if Nat.eqb y x then i else indexOf_from (i + 1) arr' x
  end.

Definition indexOf (arr : list nat) (x : nat) : Z := indexOf_from 0 arr x.

(** [arr.splice(start, 1)], kept with ECMAScript's treatment of a negative
    [start] (counted from the end, so [-1] removes the last element) and of
    a [start] beyond the end (removes nothing). *)
Definition splice1 {A} (start : Z) (arr : list A) : list A :=
  let len := Z.of_nat (length arr) in
  let actualStart :=
    if start <? 0 then Z.max (len + start) 0 else Z.min start len in
  delete (Z.to_nat actualStart) arr.

End JsArray.

(* ===================================================================== *)
(** ** async/pool.ts *)
(* ===================================================================== *)

Module Pool.

Section WithTypes.
Variables T R E : Type.

Inductive Settlement := Fulfilled (value : R) | Rejected (reason : E).

(** One loop iteration creates the promise [p] (the transformation) and
    the promise [e = p.then(() => executing.splice(...))].  *)
Inductive Progress :=
| Running                    (* [iteratorFn(item)] unsettled: [p] pending *)
| Settled (s : Settlement)   (* [p] settled, its [then] reactions queued  *)
| Reacted (s : Settlement).  (* the reactions have run: [e] is settled    *)

Record Task := mkTask { item : T; progress : Progress }.

(** What has been handed to [writer], in call order; the TransformStream
    delivers it to the consumer in that order: a chunk per fulfilled
    promise, the end of the sequence for [close()], and the error for the
    rejected promise written by the [catch] block. *)
Inductive Written :=
| Chunk (value : R)
| Close
| AggregateError (errors : list E).

(** Where the anonymous async function is parked. *)
Inductive Main :=
| ForAwait
| AwaitRace (snapshot : list nat)
| AwaitAll (snapshot : list nat)
| AwaitAllSettled (snapshot : list nat)
| Finished.

(** [poolLimit] is a count, hence an integer; [array] is a finite source
    whose iteration does not throw; a transformation either never settles
    or settles the way [iteratorFn] says. *)
Record state := mkState {
  poolLimit : Z;           (* the three parameters, captured by the closure *)
  iteratorFn : T -> Settlement;
  array : list T;          (* what the source has not handed out yet *)
  tasks : list Task;       (* every transformation launched, by identity *)
  executing : list nat;    (* the array [executing] of promises [e] *)
  written : list Written;
  main : Main
}.

(** [pooledMap(poolLimit, array, iteratorFn)] builds the stream, starts the
    async function and returns the iterator; nothing has run yet.  The
    function has no parameter validation. *)
Definition pooledMap (limit : Z) (arr : list T)
    (fn : T -> Settlement) : state :=
  {| poolLimit := limit; iteratorFn := fn; array := arr; tasks := []; executing := []; written := [];
     main := ForAwait |}.

Definition set_main (m : Main) (st : state) : state :=
  {| poolLimit := poolLimit st; iteratorFn := iteratorFn st;
     array := array st; tasks := tasks st; executing := executing st;
     written := written st; main := m |}.

Definition set_progress (id : nat) (p : Progress) (st : state) : state :=
  {| poolLimit := poolLimit st; iteratorFn := iteratorFn st;
     array := array st;
     tasks := alter (fun t => mkTask (item t) p) id (tasks st);
     executing := executing st; written := written st; main := main st |}.

(** The loop body for one item, up to the next suspension point. *)
Definition launch (x : T) (rest : list T) (st : state) : state :=
  let e := length (tasks st) in
  let executing' := executing st ++ [e] in
  {| poolLimit := poolLimit st; iteratorFn := iteratorFn st;
     array := rest;
     tasks := tasks st ++ [mkTask x Running];
     executing := executing';
     written := written st;
     main := if Z.of_nat (length executing') >=? poolLimit st
             then AwaitRace executing' else ForAwait |}.

(** Entering [catch]: [Promise.allSettled(executing)] is called on the
    array as it is at that moment. *)
Definition catch_block (st : state) : state :=
  set_main (AwaitAllSettled (executing st)) st.

Definition progress_of (st : state) (id : nat) : option Progress :=
  progress <$> tasks st !! id.

Definition is_reacted (st : state) (id : nat) : bool :=
  match progress_of st id with Some (Reacted _) => true | _ => false end.

Definition is_fulfilled (st : state) (id : nat) : bool :=
  match progress_of st id with
  | Some (Reacted (Fulfilled _)) => true | _ => false end.

Definition rejection (st : state) (id : nat) : option E :=
  match progress_of st id with
  | Some (Reacted (Rejected r)) => Some r | _ => None end.

(** [for (const result of ...) if (result.status == "rejected")
       errors.push(result.reason)] *)
Definition collect_errors (st : state) (snapshot : list nat) : list E :=
  omap (rejection st) snapshot.

(** The two reactions registered on [p], which run back to back:
    [v => writer.write(Promise.resolve(v))] and
    [() => executing.splice(executing.indexOf(e), 1)].  A rejected [p] skips
    both and rejects [e]. *)
Definition react (id : nat) (s : Settlement) (st : state) : state :=
  match s with
  | Fulfilled v =>
      {| poolLimit := poolLimit st; iteratorFn := iteratorFn st;
     array := array st;
         tasks := alter (fun t => mkTask (item t) (Reacted s)) id (tasks st);
         executing :=
           JsArray.splice1 (JsArray.indexOf (executing st) id) (executing st);
         written := written st ++ [Chunk v];
         main := main st |}
  | Rejected _ => set_progress id (Reacted s) st
  end.

Definition write (w : Written) (st : state) : state :=
  {| poolLimit := poolLimit st; iteratorFn := iteratorFn st;
     array := array st; tasks := tasks st; executing := executing st;
     written := written st ++ [w]; main := Finished |}.

Inductive event :=
| Pull                    (* the source answers the loop's request *)
| Settle (id : nat)       (* the promise of [iteratorFn(item)] settles *)
| React (id : nat)        (* the reactions on [p] run *)
| RaceSettled (id : nat)  (* [await Promise.race] resumes, decided by [e] *)
| AllFulfilled            (* [await Promise.all] resumes *)
| AllRejected (id : nat)  (* [await Promise.all] throws, because of [e] *)
| AllSettled.             (* [await Promise.allSettled] resumes *)

Definition step (ev : event) (st : state) : option state :=
  match ev with
  | Pull =>
      match main st with
      | ForAwait =>
          match array st with
          | x :: rest => Some (launch x rest st)
          | [] => Some (set_main (AwaitAll (executing st)) st)
          end
      | _ => None
      end
  | Settle id =>
      match tasks st !! id with
      | Some (mkTask x Running) =>
          Some (set_progress id (Settled (iteratorFn st x)) st)
      | _ => None
      end
  | React id =>
      match progress_of st id with
      | Some (Settled s) => Some (react id s st)
      | _ => None
      end
  | RaceSettled id =>
      match main st with
      | AwaitRace snapshot =>
          if bool_decide (id ∈ snapshot) then
            match progress_of st id with
            | Some (Reacted (Fulfilled _)) => Some (set_main ForAwait st)
            | Some (Reacted (Rejected _)) => Some (catch_block st)
            | _ => None
            end
          else None
      | _ => None
      end
  | AllFulfilled =>
      match main st with
      | AwaitAll snapshot =>
          if forallb (is_fulfilled st) snapshot
          then Some (write Close st) else None
      | _ => None
      end
  | AllRejected id =>
      match main st with
      | AwaitAll snapshot =>
          if bool_decide (id ∈ snapshot) then
            match rejection st id with
            | Some _ => Some (catch_block st)
            | None => None
            end
          else None
      | _ => None
      end
  | AllSettled =>
      match main st with
      | AwaitAllSettled snapshot =>
          if forallb (is_reacted st) snapshot
          then Some (write (AggregateError (collect_errors st snapshot)) st)
          else None
      | _ => None
      end
  end.

Fixpoint run (evs : list event) (st : state) : option state :=
  match evs with
  | [] => Some st
  | ev :: evs' => step ev st ≫= run evs'
  end.

(** Transformations in flight: launched and not yet settled. *)
Definition is_running (t : Task) : bool :=
  match progress t with Running => true | _ => false end.

Definition unsettled (st : state) : nat :=
  length (List.filter is_running (tasks st)).

End WithTypes.

Arguments Fulfilled {R E} value.
Arguments Rejected {R E} reason.
Arguments Running {R E}.
Arguments Settled {R E} s.
Arguments Reacted {R E} s.
Arguments mkTask {T R E}.
Arguments item {T R E}.
Arguments progress {T R E}.
Arguments Chunk {R E} value.
Arguments Close {R E}.
Arguments AggregateError {R E} errors.
Arguments mkState {T R E}.
Arguments poolLimit {T R E}.
Arguments iteratorFn {T R E}.
Arguments array {T R E}.
Arguments tasks {T R E}.
Arguments executing {T R E}.
Arguments written {T R E}.
Arguments main {T R E}.
Arguments pooledMap {T R E}.
Arguments set_main {T R E}.
Arguments set_progress {T R E}.
Arguments launch {T R E}.
Arguments catch_block {T R E}.
Arguments progress_of {T R E}.
Arguments is_reacted {T R E}.
Arguments is_fulfilled {T R E}.
Arguments rejection {T R E}.
Arguments collect_errors {T R E}.
Arguments react {T R E}.
Arguments write {T R E}.
Arguments step {T R E}.
Arguments run {T R E}.
Arguments is_running {T R E}.
Arguments unsettled {T R E}.

End Pool.

(* ===================================================================== *)
(** ** async/mux_async_iterator.ts *)
(* ===================================================================== *)

Module Mux.

Section WithTypes.
Variables T E : Type.

(** [{ iterator, value }]; an iterator is known by its identity. *)
Record TaggedYieldedValue := mkYielded { iterator : nat; value : T }.

(** What [await iterator.next()] gives. *)
Inductive IteratorResult :=
| Value (v : T)      (* [{ value, done: false }] *)
| Done               (* [{ done: true }] *)
| Failed (e : E).    (* the call threw or the promise rejected *)

(** Where the async generator [iterate] is parked. *)
Inductive Frame :=
| NotStarted
| AwaitSignal        (* at [await this.signal] *)
| AtYield (i : nat)  (* at [yield value] of the [for] loop, index [i] *)
| Completed.         (* returned or threw: every later [next()] is done *)

(** What the consumer of the generator has received. *)
Inductive Emitted := Yield (v : T) | Return | Throw (e : E).

Record state := mkState {
  iteratorCount : Z;
  yields : list TaggedYieldedValue;
  throws : list E;
  signal : Deferred.t unit E;
  pulls : list nat;      (* iterators whose [next()] is outstanding *)
  fresh : nat;           (* identity of the next iterator created by [add] *)
  frame : Frame;
  emitted : list Emitted
}.

(** Field initialisers of the class. *)
Definition MuxAsyncIterator : state :=
  {| iteratorCount := 0; yields := []; throws := [];
     signal := Deferred.deferred; pulls := []; fresh := 0%nat;
     frame := NotStarted; emitted := [] |}.

(** [callIteratorNext(iterator)] up to [await iterator.next()]. *)
Definition callIteratorNext (it : nat) (st : state) : state :=
  {| iteratorCount := iteratorCount st; yields := yields st;
     throws := throws st; signal := signal st;
     pulls := pulls st ++ [it]; fresh := fresh st;
     frame := frame st; emitted := emitted st |}.

(** [add(iterable)]: [++this.iteratorCount] and the first pull on the
    iterator the iterable hands out. *)
Definition add (st : state) : state :=
  callIteratorNext (fresh st)
    {| iteratorCount := iteratorCount st + 1; yields := yields st;
       throws := throws st; signal := signal st;
       pulls := pulls st; fresh := S (fresh st);
       frame := frame st; emitted := emitted st |}.

Fixpoint remove_first (it : nat) (l : list nat) : list nat :=
  match l with
  | [] => []
  | x :: l' => if Nat.eqb x it then l' else x :: remove_first it l'
  end.

(** The rest of [callIteratorNext] once [iterator.next()] has settled: the
    [try]/[catch] and the final [this.signal.resolve()], itself an async
    call that parks at its own [await]. *)
Definition callIteratorNext_resume (it : nat) (r : IteratorResult)
    (st : state) : state :=
  {| iteratorCount :=
       match r with Done => iteratorCount st - 1 | _ => iteratorCount st end;
     yields :=
       match r with
       | Value v => yields st ++ [mkYielded it v] | _ => yields st end;
     throws :=
       match r with Failed e => throws st ++ [e] | _ => throws st end;
     signal := Deferred.resolve (Deferred.Plain tt) (signal st);
     pulls := remove_first it (pulls st); fresh := fresh st;
     frame := frame st; emitted := emitted st |}.

(** Statements of the generator body may complete abruptly. *)
Inductive Completion := Normal (st : state) | Abrupt (e : E) (st : state).

Definition bind (c : Completion) (k : state -> Completion) : Completion :=
  match c with Normal st => k st | Abrupt e st => Abrupt e st end.

(** [for (const x of xs) body] *)
Fixpoint for_of (xs : list E) (body : E -> state -> Completion)
    (st : state) : Completion :=
  match xs with
  | [] => Normal st
  | x :: xs' => bind (body x st) (for_of xs' body)
  end.

Definition set_throws (l : list E) (st : state) : state :=
  {| iteratorCount := iteratorCount st; yields := yields st;
     throws := l; signal := signal st; pulls := pulls st;
     fresh := fresh st; frame := frame st; emitted := emitted st |}.

(** [if (this.throws.length) { for (const e of this.throws) { throw e; }
       this.throws.length = 0; }] *)
Definition raise_throws (st : state) : Completion :=
  if negb (length (throws st) =? 0)%nat then
    bind (for_of (throws st) (fun e st' => Abrupt e st') st)
         (fun st' => Normal (set_throws [] st'))
  else Normal st.

Definition finish (out : Emitted) (st : state) : state :=
  {| iteratorCount := iteratorCount st; yields := yields st;
     throws := throws st; signal := signal st; pulls := pulls st;
     fresh := fresh st; frame := Completed;
     emitted := emitted st ++ [out] |}.

(** [while (this.iteratorCount > 0) { await this.signal; ...] *)
Definition loop_head (st : state) : state :=
  if 0 <? iteratorCount st then
    {| iteratorCount := iteratorCount st; yields := yields st;
       throws := throws st; signal := signal st; pulls := pulls st;
       fresh := fresh st; frame := AwaitSignal; emitted := emitted st |}
  else finish Return st.

(** The tail of one cycle: the re-raising, then
    [this.yields.length = 0; this.signal = deferred();] and the loop test. *)
Definition end_of_cycle (st : state) : state :=
  match raise_throws st with
  | Abrupt e st' => finish (Throw e) st'
  | Normal st' =>
      loop_head
        {| iteratorCount := iteratorCount st'; yields := [];
           throws := throws st'; signal := Deferred.deferred;
           pulls := pulls st'; fresh := fresh st';
           frame := frame st'; emitted := emitted st' |}
  end.

(** [for (let i = 0; i < this.yields.length; i++) { ...; yield value; ...]
    entered with the index [i]: it parks at the [yield] or falls through. *)
Definition for_loop (i : nat) (st : state) : state :=
  match yields st !! i with
  | Some y =>
      {| iteratorCount := iteratorCount st; yields := yields st;
         throws := throws st; signal := signal st; pulls := pulls st;
         fresh := fresh st; frame := AtYield i;
         emitted := emitted st ++ [Yield (value y)] |}
  | None => end_of_cycle st
  end.

Definition set_signal (d : Deferred.t unit E) (st : state) : state :=
  {| iteratorCount := iteratorCount st; yields := yields st;
     throws := throws st; signal := d; pulls := pulls st;
     fresh := fresh st; frame := frame st; emitted := emitted st |}.

Inductive event :=
| Add                                     (* [mux.add(iterable)] *)
| Settle (it : nat) (r : IteratorResult)  (* an outstanding pull settles *)
| Tick (k : nat)         (* a parked [signal.resolve()] runs to its end *)
| Next                   (* the consumer calls [next()] *)
| Wake.                  (* [await this.signal] resumes *)

Definition step (ev : event) (st : state) : option state :=
  match ev with
  | Add => Some (add st)
  | Settle it r =>
      if bool_decide (it ∈ pulls st)
      then Some (callIteratorNext_resume it r st) else None
  | Tick k =>
      match Deferred.resolve_resume k (signal st) with
      | Some (_, d) => Some (set_signal d st)
      | None => None
      end
  | Next =>
      match frame st with
      | NotStarted => Some (loop_head st)
      | AtYield i =>
          match yields st !! i with
          | Some y => Some (for_loop (S i) (callIteratorNext (iterator y) st))
          | None => None
          end
      | _ => None
      end
  | Wake =>
      match frame st with
      | AwaitSignal =>
          match Deferred.promise (signal st) with
          | Deferred.FulfilledWith _ => Some (for_loop 0 st)
          | Deferred.RejectedWith e => Some (finish (Throw e) st)
          | Deferred.Unsettled => None
          end
      | _ => None
      end
  end.

Fixpoint run (evs : list event) (st : state) : option state :=
  match evs with
  | [] => Some st
  | ev :: evs' => step ev st ≫= run evs'
  end.

End WithTypes.

Arguments mkYielded {T}.
Arguments iterator {T}.
Arguments value {T}.
Arguments Value {T E} v.
Arguments Done {T E}.
Arguments Failed {T E} e.
Arguments Yield {T E} v.
Arguments Return {T E}.
Arguments Throw {T E} e.
Arguments mkState {T E}.
Arguments iteratorCount {T E}.
Arguments yields {T E}.
Arguments throws {T E}.
Arguments signal {T E}.
Arguments pulls {T E}.
Arguments fresh {T E}.
Arguments frame {T E}.
Arguments emitted {T E}.
Arguments MuxAsyncIterator {T E}.
Arguments callIteratorNext {T E}.
Arguments add {T E}.
Arguments callIteratorNext_resume {T E}.
Arguments Normal {T E}.
Arguments Abrupt {T E}.
Arguments bind {T E}.
Arguments for_of {T E}.
Arguments set_throws {T E}.
Arguments raise_throws {T E}.
Arguments finish {T E}.
Arguments loop_head {T E}.
Arguments end_of_cycle {T E}.
Arguments for_loop {T E}.
Arguments set_signal {T E}.
Arguments Add {T E}.
Arguments Settle {T E}.
Arguments Tick {T E}.
Arguments Next {T E}.
Arguments Wake {T E}.
Arguments step {T E}.
Arguments run {T E}.

End Mux.

(* ===================================================================== *)
(** ** http/server.ts *)
(* ===================================================================== *)

Module Server.

(** The thrown values the source tells apart ([instanceof]). *)
Inductive error :=
| Http (message : string)
| BadResource
| InvalidData
| UnexpectedEof
| ConnectionReset
| NotConnected
| OtherError (name : string).

Definition ERROR_SERVER_CLOSED : string := "Server closed".
Definition HTTP_PORT : Z := 80.
Definition HTTPS_PORT : Z := 443.
Definition INITIAL_ACCEPT_BACKOFF_DELAY : Z := 5.
Definition MAX_ACCEPT_BACKOFF_DELAY : Z := 1000.

Record Addr := mkAddr { hostname : string; port : Z }.

(** [Deno.Listener], [Deno.Conn], [Deno.HttpConn]: external resources,
    known by their resource id. *)
Record Listener := mkListener { rid : nat; addr : Addr }.
Record Conn := mkConn { conn_rid : nat; conn_localAddr : Addr;
                        conn_remoteAddr : Addr }.
Definition HttpConn := nat.

Record ConnInfo := mkConnInfo { localAddr : Addr; remoteAddr : Addr }.
Definition Request := string.
Record Response := mkResponse { body : string; status : Z }.

(** How a call into user code or into the runtime ends. *)
Inductive Outcome (A : Type) :=
| Returns (a : A)
| Raises (e : error)
| Hangs.
Arguments Returns {A} a.
Arguments Raises {A} e.
Arguments Hangs {A}.

(** [Deno.RequestEvent] *)
Record RequestEvent := mkRequestEvent {
  request : Request;
  respondWith : Response -> Outcome unit
}.

(** The private fields of [class Server]. *)
Record Server := mkServer {
  s_port : option Z;
  s_host : option string;
  s_handler : Request -> ConnInfo -> Outcome Response;
  s_closed : bool;
  s_listeners : list Listener;       (* a [Set], in insertion order *)
  s_httpConnections : list HttpConn; (* a [Set], in insertion order *)
  s_onError : error -> Outcome Response
}.

(** Calls on the collaborators, in the order they are made. *)
Inductive effect :=
| ListenerClose (l : nat)
| HttpConnClose (c : HttpConn)
| Delay (ms : Z)
| Listen (p : Z) (h : string)
| ListenTls (p : Z) (h : string) (certFile keyFile : string)
| ServeHttp (c : nat)
| RespondWith (c : HttpConn) (r : Response)
| UnhandledRejection (e : error).

(** The server object together with the part of the runtime it talks to:
    which resources have been closed, and the log of calls. *)
Record world := mkWorld {
  self : Server;
  closedRids : list nat;
  log : list effect
}.

(** *** A state and exception monad for method bodies *)

Inductive Completion (A : Type) :=
| Normal (a : A)
| Thrown (e : error)
| Pending.           (* parked at an [await] that has not settled *)
Arguments Normal {A} a.
Arguments Thrown {A} e.
Arguments Pending {A}.

Definition M (A : Type) : Type := world -> Completion A * world.

Definition ret {A} (a : A) : M A := fun w => (Normal a, w).
Definition throw {A} (e : error) : M A := fun w => (Thrown e, w).
Definition park {A} : M A := fun w => (Pending, w).

Definition bind {A B} (m : M A) (k : A -> M B) : M B :=
  fun w =>
    match m w with
    | (Normal a, w') => k a w'
    | (Thrown e, w') => (Thrown e, w')
    | (Pending, w') => (Pending, w')
    end.

(** [try { m } catch (e) { h(e) }] *)
Definition try_catch {A} (m : M A) (h : error -> M A) : M A :=
  fun w =>
    match m w with
    | (Thrown e, w') => h e w'
    | r => r
    end.

(** [try { m } finally { f }]: [f] runs when [m] has ended, and an
    exception of [f] replaces the completion of [m]. *)
Definition try_finally {A} (m : M A) (f : M unit) : M A :=
  fun w =>
    match m w with
    | (Pending, w') => (Pending, w')
    | (c, w') =>
        match f w' with
        | (Normal _, w'') => (c, w'')
        | (Thrown e, w'') => (Thrown e, w'')
        | (Pending, w'') => (Pending, w'')
        end
    end.

Declare Scope js_scope.
Delimit Scope js_scope with js.
Notation "x <- m ;; k" := (bind m (fun x => k))
  (at level 100, m at next level, right associativity) : js_scope.
Notation "m ;; k" := (bind m (fun _ => k))
  (at level 100, right associativity) : js_scope.
Local Open Scope js_scope.

Definition get : M Server := fun w => (Normal (self w), w).

Definition modify (f : Server -> Server) : M unit :=
  fun w => (Normal tt, mkWorld (f (self w)) (closedRids w) (log w)).

Definition emit (e : effect) : M unit :=
  fun w => (Normal tt, mkWorld (self w) (closedRids w) (log w ++ [e])).

(** [await] of something the environment decides. *)
Definition await {A} (o : Outcome A) : M A :=
  match o with
  | Returns a => ret a
  | Raises e => throw e
  | Hangs => park
  end.

Fixpoint for_each {A} (xs : list A) (body : A -> M unit) : M unit :=
  match xs with
  | [] => ret tt
  | x :: xs' => body x ;; for_each xs' body
  end.

(** [resource.close()]: throws [BadResource] on a resource that is closed
    already. *)
Definition close_resource (r : nat) (e : effect) : M unit :=
  fun w =>
    if bool_decide (r ∈ closedRids w) then (Thrown BadResource, w)
    else (Normal tt, mkWorld (self w) (r :: closedRids w) (log w ++ [e])).

(** *** [Set.prototype.add], [delete], [clear] *)

Definition Set_add {A} (same : A -> A -> bool) (x : A) (s : list A)
  : list A :=
  if existsb (same x) s then s else s ++ [x].

Definition Set_delete {A} (same : A -> A -> bool) (x : A) (s : list A)
  : list A :=
  List.filter (fun y => negb (same x y)) s.

Definition same_listener (a b : Listener) : bool := Nat.eqb (rid a) (rid b).

(** *** The constructor *)

Record ServerInit := mkServerInit {
  i_port : option Z;
  i_hostname : option string;
  i_handler : Request -> ConnInfo -> Outcome Response;
  i_onError : option (error -> Outcome Response)
}.

(** The default [onError]; its [console.error] is not recorded. *)
Definition default_onError (e : error) : Outcome Response :=
  Returns (mkResponse "Internal Server Error" 500).

Definition constructor (serverInit : ServerInit) : Server :=
  {| s_port := i_port serverInit;
     s_host := i_hostname serverInit;
     s_handler := i_handler serverInit;
     s_closed := false;
     s_listeners := [];
     s_httpConnections := [];
     s_onError := default default_onError (i_onError serverInit) |}.

Definition new_Server (serverInit : ServerInit) : world :=
  mkWorld (constructor serverInit) [] [].

(** *** Private methods *)

Definition with_listeners (f : list Listener -> list Listener)
    (s : Server) : Server :=
  mkServer (s_port s) (s_host s) (s_handler s) (s_closed s)
           (f (s_listeners s)) (s_httpConnections s) (s_onError s).

Definition with_httpConnections (f : list HttpConn -> list HttpConn)
    (s : Server) : Server :=
  mkServer (s_port s) (s_host s) (s_handler s) (s_closed s)
           (s_listeners s) (f (s_httpConnections s)) (s_onError s).

Definition set_closed (b : bool) (s : Server) : Server :=
  mkServer (s_port s) (s_host s) (s_handler s) b
           (s_listeners s) (s_httpConnections s) (s_onError s).

Definition trackListener (listener : Listener) : M unit :=
  modify (with_listeners (Set_add same_listener listener)).

Definition untrackListener (listener : Listener) : M unit :=
  modify (with_listeners (Set_delete same_listener listener)).

Definition trackHttpConnection (httpConn : HttpConn) : M unit :=
  modify (with_httpConnections (Set_add Nat.eqb httpConn)).

Definition untrackHttpConnection (httpConn : HttpConn) : M unit :=
  modify (with_httpConnections (Set_delete Nat.eqb httpConn)).

Definition closeHttpConn (httpConn : HttpConn) : M unit :=
  untrackHttpConnection httpConn ;;
  try_catch (close_resource httpConn (HttpConnClose httpConn))
            (fun _ => ret tt).

Definition close_listener (listener : Listener) : M unit :=
  try_catch (close_resource (rid listener) (ListenerClose (rid listener)))
            (fun _ => ret tt).

(** *** [close()], [closed], [addrs] *)

Definition close : M unit :=
  s <- get ;;
  if s_closed s then throw (Http ERROR_SERVER_CLOSED)
  else
    modify (set_closed true) ;;
    for_each (s_listeners s) close_listener ;;
    modify (with_listeners (fun _ => [])) ;;
    for_each (s_httpConnections s) closeHttpConn ;;
    modify (with_httpConnections (fun _ => [])).

Definition closed (w : world) : bool := s_closed (self w).

Definition addrs (w : world) : list Addr := addr <$> s_listeners (self w).

(** *** [#respond] *)

Definition respond (requestEvent : RequestEvent) (httpConn : HttpConn)
    (connInfo : ConnInfo) : M unit :=
  s <- get ;;
  response <-
    try_catch (await (s_handler s (request requestEvent) connInfo))
              (fun error => await (s_onError s error)) ;;
  try_catch
    (await (respondWith requestEvent response) ;;
     emit (RespondWith httpConn response))
    (fun _ => closeHttpConn httpConn).

(** *** [#serveHttp] *)

(** The call of [#respond] is not awaited: [#serveHttp] goes on whatever
    becomes of it, and a rejection of its promise has no handler.  The
    dispatch is rendered as running to its end before the next request
    event arrives. *)
Definition detached (m : M unit) : M unit :=
  fun w =>
    match m w with
    | (Thrown e, w') =>
        (Normal tt,
         mkWorld (self w') (closedRids w') (log w' ++ [UnhandledRejection e]))
    | (_, w') => (Normal tt, w')
    end.

(** A connection loop parked at [await httpConn.nextRequest()], fed with
    the results of the successive calls. *)
Fixpoint serveHttp_parked (httpConn : HttpConn) (connInfo : ConnInfo)
    (script : list (Outcome (option RequestEvent))) : M unit :=
  match script with
  | [] => park
  | Hangs :: _ => park
  | Raises _ :: _ => closeHttpConn httpConn           (* [catch { break; }] *)
  | Returns None :: _ => closeHttpConn httpConn       (* [=== null]: break *)
  | Returns (Some requestEvent) :: rest =>
      detached (respond requestEvent httpConn connInfo) ;;
      s <- get ;;
      if s_closed s then closeHttpConn httpConn
      else serveHttp_parked httpConn connInfo rest
  end.

Definition serveHttp (httpConn : HttpConn) (connInfo : ConnInfo)
    (script : list (Outcome (option RequestEvent))) : M unit :=
  s <- get ;;
  if s_closed s then closeHttpConn httpConn
  else serveHttp_parked httpConn connInfo script.

(** *** [#accept] *)

Definition is_transient (e : error) : bool :=
  match e with
  | BadResource | InvalidData | UnexpectedEof | ConnectionReset
  | NotConnected => true
  | _ => false
  end.

(** [if (!acceptBackoffDelay) ... else acceptBackoffDelay *= 2;] followed
    by the cap.  [!x] holds of [undefined] and of [0]. *)
Definition next_backoff (acceptBackoffDelay : option Z) : Z :=
  let d :=
    match acceptBackoffDelay with
    | None => INITIAL_ACCEPT_BACKOFF_DELAY
    | Some d =>
        if d =? 0 then INITIAL_ACCEPT_BACKOFF_DELAY else d * 2
    end in
  if d >=? MAX_ACCEPT_BACKOFF_DELAY then MAX_ACCEPT_BACKOFF_DELAY else d.

(** What an accept loop sees at its suspension points. *)
Inductive accept_event :=
| Accepts (conn : Conn) (upgrade : option HttpConn)
                           (* [accept()] gave [conn]; [upgrade] is what
                              [Deno.serveHttp(conn)] returns, [None] when
                              it throws *)
| Rejects (e : error)      (* [accept()] threw *)
| Elapsed.                 (* the timer of [delay] fired *)

Inductive accept_frame := AtAccept | AtDelay.

(** The loop of [#accept], parked at [await listener.accept()] or at
    [await delay(...)], fed with what happens next.  An event that does
    not belong to the current suspension point leaves the loop parked. *)
Fixpoint accept_at (frame : accept_frame) (script : list accept_event)
    (acceptBackoffDelay : option Z) : M unit :=
  match script, frame with
  | [], _ => park
  | Accepts conn upgrade :: rest, AtAccept =>
      (* [acceptBackoffDelay = undefined;] hence [None] below *)
      match upgrade with
      | None => ret tt                               (* [catch { continue; }] *)
      | Some httpConn =>
          trackHttpConnection httpConn ;;
          emit (ServeHttp httpConn) ;;
          detached (serveHttp httpConn
                      (mkConnInfo (conn_localAddr conn) (conn_remoteAddr conn))
                      [])
      end ;;
      s <- get ;;
      if s_closed s then ret tt else accept_at AtAccept rest None
  | Rejects e :: rest, AtAccept =>
      if is_transient e then
        let d := next_backoff acceptBackoffDelay in
        emit (Delay d) ;;
        accept_at AtDelay rest (Some d)
      else throw e
  | Elapsed :: rest, AtDelay =>
      s <- get ;;
      if s_closed s then ret tt else accept_at AtAccept rest acceptBackoffDelay
  | _ :: _, _ => park
  end.

Definition accept (script : list accept_event) : M unit :=
  s <- get ;;
  if s_closed s then ret tt else accept_at AtAccept script None.

(** *** [serve], [listenAndServe], [listenAndServeTls] *)

Definition serve_cleanup (listener : Listener) : M unit :=
  untrackListener listener ;; close_listener listener.

Definition serve (listener : Listener) (script : list accept_event)
  : M unit :=
  s <- get ;;
  if s_closed s then throw (Http ERROR_SERVER_CLOSED)
  else
    trackListener listener ;;
    try_finally (accept script) (serve_cleanup listener).

(** [listen] is what [Deno.listen] answers. *)
Definition listenAndServe (listen : Outcome Listener)
    (script : list accept_event) : M unit :=
  s <- get ;;
  if s_closed s then throw (Http ERROR_SERVER_CLOSED)
  else
    emit (Listen (default HTTP_PORT (s_port s))
                 (default "0.0.0.0"%string (s_host s))) ;;
    listener <- await listen ;;
    serve listener script.

Definition listenAndServeTls (certFile keyFile : string)
    (listen : Outcome Listener) (script : list accept_event) : M unit :=
  s <- get ;;
  if s_closed s then throw (Http ERROR_SERVER_CLOSED)
  else
    emit (ListenTls (default HTTPS_PORT (s_port s))
                    (default "0.0.0.0"%string (s_host s))
                    certFile keyFile) ;;
    listener <- await listen ;;
    serve listener script.

(** *** What can happen to a server object over time *)

Inductive activity :=
| CallServe (listener : Listener) (script : list accept_event)
| CallListenAndServe (listen : Outcome Listener)
                     (script : list accept_event)
| CallListenAndServeTls (certFile keyFile : string)
                        (listen : Outcome Listener)
                        (script : list accept_event)
| CallClose
| ResumeServe (listener : Listener) (frame : accept_frame)
              (acceptBackoffDelay : option Z) (script : list accept_event)
| ResumeServeHttp (httpConn : HttpConn) (connInfo : ConnInfo)
                  (script : list (Outcome (option RequestEvent))).

Definition perform (a : activity) : M unit :=
  match a with
  | CallServe l script => serve l script
  | CallListenAndServe listen script => listenAndServe listen script
  | CallListenAndServeTls c k listen script =>
      listenAndServeTls c k listen script
  | CallClose => close
  | ResumeServe l frame d script =>
      try_finally (accept_at frame script d) (serve_cleanup l)
  | ResumeServeHttp c info script => serveHttp_parked c info script
  end.

Fixpoint run (acts : list activity) (w : world) : world :=
  match acts with
  | [] => w
  | a :: acts' => run acts' (snd (perform a w))
  end.

(** The sleeps of a log, in order. *)
Definition delays (l : list effect) : list Z :=
  omap (fun e => match e with Delay d => Some d | _ => None end) l.

End Server.

(* ===================================================================== *)
(** ** http/server.ts: the exported functions *)
(* ===================================================================== *)

Module ServerApi.
Import Server.
Local Open Scope js_scope.

(** [ServeInit]: [port], [hostname], [onError], [signal]. *)
Record ServeInit := mkServeInit {
  o_port : option Z;
  o_hostname : option string;
  o_onError : option (error -> Outcome Response);
  o_signal : bool                  (* an [AbortSignal] is given *)
}.

(** [ServeTlsInit] adds [keyFile] and [certFile]. *)
Record ServeTlsInit := mkServeTlsInit {
  t_options : ServeInit;
  t_keyFile : option string;
  t_certFile : option string
}.

(** [Deno.ListenOptions], the [config] of the deprecated functions. *)
Record ListenOptions := mkListenOptions {
  c_port : option Z;
  c_hostname : option string
}.

(** [!x] for an optional string: [undefined] and the empty string. *)
Definition is_falsy (x : option string) : bool :=
  match x with
  | None => true
  | Some EmptyString => true
  | Some _ => false
  end.

(** What [options.signal.onabort = () => server.close()] registers, when
    a signal is given. *)
Definition onabort (options : ServeInit) : option (M unit) :=
  if o_signal options then Some close else None.

(** The functions build their own server, so they start from no world and
    end with the one they made.  [listen] is what [Deno.listen] or
    [Deno.listenTls] answers, [script] what the accept loop sees. *)


Definition serve (handler : Request -> ConnInfo -> Outcome Response)
    (options : ServeInit) (listen : Outcome Listener)
    (script : list accept_event) : Completion unit * world :=
  Server.listenAndServe listen script
    (new_Server
       (mkServerInit (Some (default 8000 (o_port options)))
                     (Some (default "0.0.0.0"%string (o_hostname options)))
                     handler (o_onError options))).

(** [serveTls] throws before it constructs a server when one of the two
    files is missing: there is no world then. *)
Definition serveTls (handler : Request -> ConnInfo -> Outcome Response)
    (options : ServeTlsInit) (listen : Outcome Listener)
    (script : list accept_event) : Completion unit * option world :=
  if is_falsy (t_keyFile options) then
    (Thrown (OtherError "TLS config is given, but 'keyFile' is missing."),
     None)
  else if is_falsy (t_certFile options) then
    (Thrown (OtherError "TLS config is given, but 'certFile' is missing."),
     None)
  else
    let '(c, w) :=
      Server.listenAndServeTls
        (default EmptyString (t_certFile options))
        (default EmptyString (t_keyFile options)) listen script
        (new_Server
           (mkServerInit
              (Some (default 8443 (o_port (t_options options))))
              (Some (default "0.0.0.0"%string
                             (o_hostname (t_options options))))
              handler (o_onError (t_options options)))) in
    (c, Some w).

(** The deprecated pair: [new Server({ ...config, handler })]; [options] is
    only looked at for its signal. *)
Definition listenAndServe (config : ListenOptions)
    (handler : Request -> ConnInfo -> Outcome Response)
    (options : option ServeInit) (listen : Outcome Listener)
    (script : list accept_event) : Completion unit * world :=
  Server.listenAndServe listen script
    (new_Server (mkServerInit (c_port config) (c_hostname config)
                              handler None)).

Definition listenAndServeTls (config : ListenOptions)
    (certFile keyFile : string)
    (handler : Request -> ConnInfo -> Outcome Response)
    (options : option ServeInit) (listen : Outcome Listener)
    (script : list accept_event) : Completion unit * world :=
  Server.listenAndServeTls certFile keyFile listen script
    (new_Server (mkServerInit (c_port config) (c_hostname config)
                              handler None)).

End ServerApi.

(* ===================================================================== *)
(** ** app/app.js *)
(* ===================================================================== *)

Module App.
Import Server.

(** [handleRequest]: logs the URL (not recorded) and answers with
    [new Response("Hello world!")], whose status is 200. *)
Definition handleRequest (request : Request) (_ : ConnInfo)
  : Outcome Response :=
  Returns (mkResponse "Hello world!" 200).

(** [serve(handleRequest, { port: 31337 })] *)
Definition app (listen : Outcome Listener) (script : list accept_event)
  : Completion unit * world :=
  ServerApi.serve handleRequest
    (ServerApi.mkServeInit (Some 31337) None None false) listen script.

End App.

(* ===================================================================== *)
(** * Properties *)
(* ===================================================================== *)

(** ** Deferred *)

Module DeferredSpec.
Import Deferred.

Section WithTypes.
Context {V E : Type}.
Implicit Types (d : t V E) (c : call V E).

(** The native promise settles at most once: whatever is called on the
    deferred afterwards, its settlement stays. *)
Lemma promise_settles_once c d d' :
  promise d <> Unsettled -> step c d = Some d' -> promise d' = promise d.
Proof.
  intros Hset Hstep. destruct c as [a|r|k]; simpl in Hstep.
  - by inversion Hstep.
  - inversion Hstep; subst; simpl. by destruct (promise d).
  - unfold resolve_resume in Hstep.
    destruct (awaiting d !! k) as [[v|v|r|]|]; simpl in Hstep;
      inversion Hstep; subst; simpl; try done; by destruct (promise d).
Qed.

Lemma promise_settles_once_run cs : forall d d',
  promise d <> Unsettled -> run cs d = Some d' -> promise d' = promise d.
Proof.
  induction cs as [|c cs IH]; intros d d' Hset Hrun; simpl in Hrun.
  - by inversion Hrun.
  - destruct (step c d) as [d1|] eqn:Hstep; simpl in Hrun; [|done].
    pose proof (promise_settles_once _ _ _ Hset Hstep) as Heq.
    rewrite <- Heq. apply IH; [by rewrite Heq | done].
Qed.

(** C5: [d.reject(r); d.resolve(v)] shows the state "rejected" and then,
    once the parked [resolve] runs on, "fulfilled", although the promise
    stays rejected with [r]; and [d.resolve(v)] followed later by
    [d.reject(r)] shows "fulfilled" and then "rejected" although the
    promise stays fulfilled with [v].  The closure variable [state] is
    overwritten by every call. *)
Theorem state_changes_after_settlement (v : V) (r : E) :
  observed [Reject r; Resolve (Plain v); Resume 0%nat] deferred
    = [rejected; rejected; fulfilled]
  /\ (promise <$> run [Reject r; Resolve (Plain v); Resume 0%nat] deferred)
    = Some (RejectedWith r)
  /\ observed [Resolve (Plain v); Resume 0%nat; Reject r] deferred
    = [pending; fulfilled; rejected]
  /\ (promise <$> run [Resolve (Plain v); Resume 0%nat; Reject r] deferred)
    = Some (FulfilledWith v).
Proof. repeat split. Qed.

(** C9: [resolve] called with an awaitable that rejects parks at its
    [await]; when it runs on, the [await] throws [r], so the activation
    ends by throwing and the deferred is exactly as it was before the call:
    same observable state, same promise.  On a fresh deferred that is
    "pending" and unsettled. *)
Theorem resolve_with_rejecting_awaitable (r : E) d :
  let d1 := resolve (WillReject r) d in
  state d1 = state d
  /\ promise d1 = promise d
  /\ resolve_resume (length (awaiting d)) d1 = Some (Threw r, d)
  /\ run [Resolve (WillReject r); Resume 0%nat] (@deferred V E)
       = Some {| state := pending; promise := Unsettled; awaiting := [] |}.
Proof.
  simpl. repeat split.
  unfold resolve_resume, resolve; simpl.
  rewrite lookup_app_r by lia. rewrite Nat.sub_diag. simpl.
  destruct d as [s p aw]; simpl. do 3 f_equal.
  induction aw as [|a aw IH]; simpl; [done|]. by rewrite IH.
Qed.

End WithTypes.
End DeferredSpec.

(** ** Server *)

Module ServerSpec.
Import Server.
Local Open Scope js_scope.

(** *** Which fields a method body leaves alone *)

Section Footprint.
Context {X : Type} (f : Server -> X).

Definition preserves {A} (m : M A) : Prop :=
  forall w, f (self (m w).2) = f (self w).

Lemma preserves_ret {A} (a : A) : preserves (ret a).
Proof. by intros w. Qed.

Lemma preserves_throw {A} e : preserves (@throw A e).
Proof. by intros w. Qed.

Lemma preserves_park {A} : preserves (@park A).
Proof. by intros w. Qed.

Lemma preserves_get : preserves get.
Proof. by intros w. Qed.

Lemma preserves_emit e : preserves (emit e).
Proof. by intros w. Qed.

Lemma preserves_await {A} (o : Outcome A) : preserves (await o).
Proof. by destruct o; intros w. Qed.

Lemma preserves_close_resource r e : preserves (close_resource r e).
Proof. intros w. unfold close_resource. by case_bool_decide. Qed.

Lemma preserves_modify g :
  (forall s, f (g s) = f s) -> preserves (modify g).
Proof. intros Hg w; simpl. apply Hg. Qed.

Lemma preserves_bind {A B} (m : M A) (k : A -> M B) :
  preserves m -> (forall a, preserves (k a)) -> preserves (bind m k).
Proof.
  intros Hm Hk w. unfold bind. specialize (Hm w).
  destruct (m w) as [[a|e|] w']; simpl in *; try done.
  by rewrite Hk.
Qed.

Lemma preserves_try_catch {A} (m : M A) h :
  preserves m -> (forall e, preserves (h e)) -> preserves (try_catch m h).
Proof.
  intros Hm Hh w. unfold try_catch. specialize (Hm w).
  destruct (m w) as [[a|e|] w']; simpl in *; try done.
  by rewrite Hh.
Qed.

Lemma preserves_try_finally {A} (m : M A) fin :
  preserves m -> preserves fin -> preserves (try_finally m fin).
Proof.
  intros Hm Hf w. unfold try_finally. specialize (Hm w).
  destruct (m w) as [[a|e|] w']; simpl in *; try done;
    specialize (Hf w'); destruct (fin w') as [[[]|e'|] w'']; simpl in *;
    congruence.
Qed.

Lemma preserves_detached (m : M unit) : preserves m -> preserves (detached m).
Proof.
  intros Hm w. unfold detached. specialize (Hm w).
  by destruct (m w) as [[a|e|] w'].
Qed.

Lemma preserves_for_each {A} (xs : list A) body :
  (forall x, preserves (body x)) -> preserves (for_each xs body).
Proof.
  intros Hb. induction xs as [|x xs IH]; simpl.
  - apply preserves_ret.
  - apply preserves_bind; auto.
Qed.

Lemma preserves_if {A} (b : bool) (m1 m2 : M A) :
  preserves m1 -> preserves m2 -> preserves (if b then m1 else m2).
Proof. by destruct b. Qed.

End Footprint.

Create HintDb footprint.
#[local] Hint Resolve preserves_ret preserves_throw preserves_park
  preserves_get preserves_emit preserves_await preserves_close_resource
  preserves_bind preserves_try_catch preserves_try_finally
  preserves_detached preserves_for_each preserves_if : footprint.

(** The two fields [close()] is about. *)
Definition closed_and_listeners (s : Server) : bool * list Listener :=
  (s_closed s, s_listeners s).

Lemma closeHttpConn_footprint c :
  preserves closed_and_listeners (closeHttpConn c).
Proof.
  unfold closeHttpConn, untrackHttpConnection.
  eauto using preserves_modify with footprint.
Qed.

Lemma trackHttpConnection_footprint c :
  preserves closed_and_listeners (trackHttpConnection c).
Proof. by apply preserves_modify. Qed.

Lemma close_listener_footprint l :
  preserves closed_and_listeners (close_listener l).
Proof. unfold close_listener. eauto with footprint. Qed.

#[local] Hint Resolve closeHttpConn_footprint trackHttpConnection_footprint
  close_listener_footprint : footprint.

Lemma respond_footprint ev c info :
  preserves closed_and_listeners (respond ev c info).
Proof. unfold respond. eauto 10 with footprint. Qed.

#[local] Hint Resolve respond_footprint : footprint.

Lemma serveHttp_parked_footprint c info script :
  preserves closed_and_listeners (serveHttp_parked c info script).
Proof.
  induction script as [|[[ev|]|e|] rest IH]; simpl; eauto 10 with footprint.
Qed.

#[local] Hint Resolve serveHttp_parked_footprint : footprint.

Lemma serveHttp_footprint c info script :
  preserves closed_and_listeners (serveHttp c info script).
Proof. unfold serveHttp. eauto 10 with footprint. Qed.

#[local] Hint Resolve serveHttp_footprint : footprint.

Lemma accept_at_footprint script : forall frame d,
  preserves closed_and_listeners (accept_at frame script d).
Proof.
  induction script as [|[conn [c|]|e|] rest IH]; intros [] d; simpl;
    eauto 12 with footprint.
Qed.

#[local] Hint Resolve accept_at_footprint : footprint.

(** *** After [close()] *)

Lemma preserves_closed_of {A} (m : M A) :
  preserves closed_and_listeners m -> preserves s_closed m.
Proof. intros H w. specialize (H w). by inversion H. Qed.

Lemma accept_closed script : preserves s_closed (accept script).
Proof.
  unfold accept. apply preserves_bind; [apply preserves_get|]. intros s.
  apply preserves_if; [apply preserves_ret|].
  apply preserves_closed_of, accept_at_footprint.
Qed.

Lemma serve_cleanup_closed l : preserves s_closed (serve_cleanup l).
Proof.
  unfold serve_cleanup, untrackListener.
  apply preserves_bind; [by apply preserves_modify|]. intros _.
  apply preserves_closed_of, close_listener_footprint.
Qed.

Lemma serve_closed l script : preserves s_closed (serve l script).
Proof.
  unfold serve, trackListener.
  eauto 10 using preserves_modify, accept_closed, serve_cleanup_closed
    with footprint.
Qed.

Lemma listenAndServe_closed listen script :
  preserves s_closed (listenAndServe listen script).
Proof.
  unfold listenAndServe. eauto 10 using serve_closed with footprint.
Qed.

Lemma listenAndServeTls_closed c k listen script :
  preserves s_closed (listenAndServeTls c k listen script).
Proof.
  unfold listenAndServeTls. eauto 10 using serve_closed with footprint.
Qed.

(** Every method other than [close] leaves [#closed] as it is. *)
Lemma perform_closed a w :
  a <> CallClose -> closed (perform a w).2 = closed w.
Proof.
  intros Ha. unfold closed. destruct a; simpl; try done.
  - apply serve_closed.
  - apply listenAndServe_closed.
  - apply listenAndServeTls_closed.
  - apply preserves_try_finally;
      [apply preserves_closed_of, accept_at_footprint
      |apply serve_cleanup_closed].
  - apply preserves_closed_of, serveHttp_parked_footprint.
Qed.

(** On a closed server the four guarded methods throw at their first
    statement and touch nothing. *)
Lemma guarded_calls_throw w :
  closed w = true ->
  (forall l script,
     serve l script w = (Thrown (Http ERROR_SERVER_CLOSED), w))
  /\ (forall listen script,
        listenAndServe listen script w
        = (Thrown (Http ERROR_SERVER_CLOSED), w))
  /\ (forall c k listen script,
        listenAndServeTls c k listen script w
        = (Thrown (Http ERROR_SERVER_CLOSED), w))
  /\ close w = (Thrown (Http ERROR_SERVER_CLOSED), w).
Proof.
  unfold closed. intros Hc.
  repeat split; intros;
    unfold serve, listenAndServe, listenAndServeTls, close, bind, get;
    simpl; by rewrite Hc.
Qed.

Definition shut (w : world) : Prop :=
  closed w = true /\ s_listeners (self w) = [].

(** Closing a resource inside [try { } catch { }] always completes. *)
Definition completes (m : M unit) : Prop :=
  forall w, exists w', m w = (Normal tt, w').

Lemma close_listener_completes l : completes (close_listener l).
Proof.
  intros w. unfold close_listener, try_catch, close_resource.
  case_bool_decide; simpl; eauto.
Qed.

Lemma closeHttpConn_completes c : completes (closeHttpConn c).
Proof.
  intros w.
  unfold closeHttpConn, untrackHttpConnection, bind, modify, try_catch,
    close_resource; simpl.
  case_bool_decide; simpl; eauto.
Qed.

Lemma for_each_completes {A} (xs : list A) body :
  (forall x, completes (body x)) -> completes (for_each xs body).
Proof.
  intros Hb. induction xs as [|x xs IH]; intros w; simpl.
  - by eexists.
  - unfold bind. destruct (Hb x w) as [w1 ->]. apply IH.
Qed.

Lemma close_shuts w :
  closed w = false -> shut (close w).2.
Proof.
  unfold closed. intros Hc.
  unfold close. unfold bind at 1. unfold get. simpl. rewrite Hc.
  unfold bind at 1. simpl.
  set (w1 := mkWorld (set_closed true (self w)) (closedRids w) (log w)).
  unfold bind at 1.
  destruct (for_each_completes (s_listeners (self w)) close_listener
              close_listener_completes w1) as [w2 E2].
  pose proof (preserves_for_each closed_and_listeners
                (s_listeners (self w)) close_listener
                close_listener_footprint w1) as H2.
  rewrite E2 in H2 |- *. simpl in H2. inversion H2 as [[H2a H2b]].
  unfold bind at 1. simpl.
  set (w3 := mkWorld _ _ _).
  unfold bind at 1.
  destruct (for_each_completes (s_httpConnections (self w)) closeHttpConn
              closeHttpConn_completes w3) as [w4 E4].
  pose proof (preserves_for_each closed_and_listeners
                (s_httpConnections (self w)) closeHttpConn
                closeHttpConn_footprint w3) as H4.
  rewrite E4 in H4 |- *. simpl in H4. inversion H4 as [[H4a H4b]].
  split; unfold closed; simpl; congruence.
Qed.

Lemma perform_shut a w : shut w -> shut (perform a w).2.
Proof.
  intros [Hc Hl].
  destruct (guarded_calls_throw w Hc) as (Hs & Hls & Htls & Hcl).
  destruct a; simpl.
  - by rewrite Hs.
  - by rewrite Hls.
  - by rewrite Htls.
  - by rewrite Hcl.
  - unfold shut, closed in *.
    pose proof (accept_at_footprint script frame acceptBackoffDelay w) as H.
    unfold try_finally.
    destruct (accept_at frame script acceptBackoffDelay w) as [c w1];
      simpl in H. inversion H as [[Ha Hb]].
    assert (Hcu : shut (serve_cleanup listener w1).2).
    { unfold serve_cleanup, untrackListener, bind, modify; simpl.
      pose proof (close_listener_footprint listener
        (mkWorld (with_listeners (Set_delete same_listener listener)
                    (self w1)) (closedRids w1) (log w1))) as H'.
      inversion H' as [[Ha' Hb']]. unfold shut, closed.
      rewrite Ha', Hb'. simpl. rewrite Ha, Hb, Hc, Hl. done. }
    destruct c as [[]|e|]; simpl;
      destruct (serve_cleanup listener w1) as [[[]|e'|] w2]; simpl in *;
      try exact Hcu; by rewrite Ha, Hb.
  - unfold shut, closed in *.
    pose proof (serveHttp_parked_footprint httpConn connInfo script w) as H.
    inversion H as [[Ha Hb]]. by rewrite Ha, Hb.
Qed.

Lemma run_shut acts : forall w, shut w -> shut (run acts w).
Proof.
  induction acts as [|a acts IH]; intros w Hw; simpl; [done|].
  apply IH, perform_shut, Hw.
Qed.

(** A server is closed only if its listener set has been emptied. *)
Lemma run_closed_inv acts : forall w,
  (closed w = true -> shut w) ->
  closed (run acts w) = true -> shut (run acts w).
Proof.
  induction acts as [|a acts IH]; intros w Hw; simpl; [done|].
  apply IH. intros Hc'.
  destruct (closed w) eqn:Hc.
  - apply perform_shut; auto.
  - destruct a; try (rewrite perform_closed in Hc' by done; congruence).
    simpl. by apply close_shuts.
Qed.

Lemma server_run_app acts1 acts2 w :
  run (acts1 ++ acts2) w = run acts2 (run acts1 w).
Proof. revert w. induction acts1 as [|a acts1 IH]; intros w; simpl; auto. Qed.

(** C3: take any server, any history in which [close()] has been called,
    and anything that happens afterwards (further calls, continuations of
    accept loops and connection loops that were parked).  Then [addrs] is
    empty, and each of [serve], [listenAndServe], [listenAndServeTls] and
    [close] throws [Deno.errors.Http("Server closed")], leaving the server
    as it is. *)
Theorem after_close_everything_is_refused
    (serverInit : ServerInit) (before after : list activity) :
  let w := run (before ++ CallClose :: after) (new_Server serverInit) in
  addrs w = []
  /\ closed w = true
  /\ (forall listener script,
        perform (CallServe listener script) w
        = (Thrown (Http ERROR_SERVER_CLOSED), w))
  /\ (forall listen script,
        perform (CallListenAndServe listen script) w
        = (Thrown (Http ERROR_SERVER_CLOSED), w))
  /\ (forall certFile keyFile listen script,
        perform (CallListenAndServeTls certFile keyFile listen script) w
        = (Thrown (Http ERROR_SERVER_CLOSED), w))
  /\ perform CallClose w = (Thrown (Http ERROR_SERVER_CLOSED), w).
Proof.
  intros w.
  assert (Hshut : shut w).
  { subst w. rewrite server_run_app. simpl. apply run_shut.
    set (w0 := run before (new_Server serverInit)).
    destruct (closed w0) eqn:Hc.
    - apply perform_shut with (a := CallClose).
      apply (run_closed_inv before (new_Server serverInit)); [done|exact Hc].
    - by apply close_shuts. }
  destruct Hshut as [Hc Hl].
  destruct (guarded_calls_throw w Hc) as (Hs & Hls & Htls & Hcl).
  split; [unfold addrs; by rewrite Hl|].
  split; [exact Hc|]. simpl. auto.
Qed.

(** *** The accept loop's backoff *)

(** The delay the specification asks for at the [k]-th failure in a row,
    counted from 0: the initial delay doubled [k] times, capped. *)
Definition backoff_delay (k : nat) : Z :=
  Z.min (INITIAL_ACCEPT_BACKOFF_DELAY * 2 ^ Z.of_nat k)
        MAX_ACCEPT_BACKOFF_DELAY.

(** What a loop sees when [accept()] fails with each of [errs] in turn and
    every backoff timer fires. *)
Definition failures (errs : list error) : list accept_event :=
  e ← errs; [Rejects e; Elapsed].

Definition add_log (w : world) (l : list effect) : world :=
  mkWorld (self w) (closedRids w) (log w ++ l).

Lemma add_log_nil w : add_log w [] = w.
Proof. destruct w. unfold add_log; simpl. by rewrite app_nil_r. Qed.

Lemma add_log_add_log w l1 l2 :
  add_log (add_log w l1) l2 = add_log w (l1 ++ l2).
Proof. unfold add_log; simpl. by rewrite app_assoc. Qed.

Lemma backoff_delay_0 : backoff_delay 0 = INITIAL_ACCEPT_BACKOFF_DELAY.
Proof. reflexivity. Qed.

Lemma backoff_delay_S k :
  backoff_delay (S k) = Z.min (2 * backoff_delay k) MAX_ACCEPT_BACKOFF_DELAY.
Proof.
  unfold backoff_delay, INITIAL_ACCEPT_BACKOFF_DELAY, MAX_ACCEPT_BACKOFF_DELAY.
  rewrite Nat2Z.inj_succ, Z.pow_succ_r by lia.
  assert (0 < 2 ^ Z.of_nat k) by (apply Z.pow_pos_nonneg; lia). lia.
Qed.

Lemma next_backoff_first : next_backoff None = backoff_delay 0.
Proof. reflexivity. Qed.

Lemma next_backoff_again k :
  next_backoff (Some (backoff_delay k)) = backoff_delay (S k).
Proof.
  rewrite backoff_delay_S. unfold next_backoff.
  assert (0 < backoff_delay k).
  { unfold backoff_delay, INITIAL_ACCEPT_BACKOFF_DELAY,
      MAX_ACCEPT_BACKOFF_DELAY.
    assert (0 < 2 ^ Z.of_nat k) by (apply Z.pow_pos_nonneg; lia). lia. }
  destruct (Z.eqb_spec (backoff_delay k) 0) as [?|_]; [lia|].
  rewrite Z.geb_leb.
  destruct (Z.leb_spec MAX_ACCEPT_BACKOFF_DELAY (backoff_delay k * 2)); lia.
Qed.

(** The accumulated delay after [k] failures in a row. *)
Definition accumulated (k : nat) : option Z :=
  match k with O => None | S k' => Some (backoff_delay k') end.

Lemma next_backoff_accumulated k :
  next_backoff (accumulated k) = backoff_delay k.
Proof. destruct k; [apply next_backoff_first | apply next_backoff_again]. Qed.

Lemma accept_at_failures errs : forall k w,
  closed w = false ->
  Forall (fun e => is_transient e = true) errs ->
  accept_at AtAccept (failures errs) (accumulated k) w
  = (Pending,
     add_log w (Delay <$> (backoff_delay <$> seq k (length errs)))).
Proof.
  induction errs as [|e errs IH]; intros k w Hc Herrs.
  - simpl. by rewrite add_log_nil.
  - inversion Herrs as [|? ? He Herrs']; subst.
    change (failures (e :: errs))
      with (Rejects e :: Elapsed :: failures errs).
    simpl. rewrite He, next_backoff_accumulated.
    unfold bind at 1. simpl. unfold bind at 1. simpl.
    unfold closed in Hc. rewrite Hc.
    change (Some (backoff_delay k)) with (accumulated (S k)).
    change (mkWorld (self w) (closedRids w) (log w ++ [Delay (backoff_delay k)]))
      with (add_log w [Delay (backoff_delay k)]).
    rewrite IH by done. by rewrite add_log_add_log.
Qed.

Lemma delays_app l1 l2 : delays (l1 ++ l2) = delays l1 ++ delays l2.
Proof. apply omap_app. Qed.

Lemma delays_Delay ds : delays (Delay <$> ds) = ds.
Proof.
  induction ds as [|d ds IH]; [done|].
  change (delays (Delay <$> d :: ds)) with (d :: delays (Delay <$> ds)).
  by rewrite IH.
Qed.

(** C6: in a loop of a server that is not closed, [accept()] failing with
    transient errors [errs] one after the other makes the loop sleep
    [backoff_delay 0], [backoff_delay 1], ... and nothing else; the loop
    ends up parked at the next [accept()], so none of the errors reaches
    the caller.  The same delays, again starting from the initial one,
    follow a successful accept whatever delay [d] had accumulated before
    it.  [backoff_delay] starts at the initial delay and doubles up to the
    cap.  Three connection resets give the delays 5, 10 and 20. *)
Theorem accept_backoff (w : world) (errs : list error)
    (conn : Conn) (upgrade : option HttpConn) (d : option Z) :
  closed w = false ->
  Forall (fun e => is_transient e = true) errs ->
  accept (failures errs) w
  = (Pending, add_log w (Delay <$> (backoff_delay <$> seq 0 (length errs))))
  /\ (exists w',
        accept_at AtAccept (Accepts conn upgrade :: failures errs) d w
        = (Pending, w')
        /\ delays (log w')
           = delays (log w) ++ (backoff_delay <$> seq 0 (length errs)))
  /\ backoff_delay 0 = INITIAL_ACCEPT_BACKOFF_DELAY
  /\ (forall k, backoff_delay (S k)
                = Z.min (2 * backoff_delay k) MAX_ACCEPT_BACKOFF_DELAY)
  /\ accept
       (failures [ConnectionReset; ConnectionReset; ConnectionReset]) w
     = (Pending,
        add_log w [Delay INITIAL_ACCEPT_BACKOFF_DELAY;
                   Delay (2 * INITIAL_ACCEPT_BACKOFF_DELAY);
                   Delay (4 * INITIAL_ACCEPT_BACKOFF_DELAY)]).
Proof.
  intros Hc Herrs.
  assert (Hfresh : forall errs',
    Forall (fun e => is_transient e = true) errs' ->
    accept (failures errs') w
    = (Pending,
       add_log w (Delay <$> (backoff_delay <$> seq 0 (length errs'))))).
  { intros errs' H'. unfold accept, bind, get; simpl.
    unfold closed in Hc. rewrite Hc.
    apply (accept_at_failures errs' 0%nat w); done. }
  split; [by apply Hfresh|].
  split.
  { assert (Hgo : forall w1, closed w1 = false ->
              delays (log w1) = delays (log w) ->
              exists w',
                bind get (fun s => if s_closed s then ret tt
                           else accept_at AtAccept (failures errs) None) w1
                = (Pending, w')
                /\ delays (log w')
                   = delays (log w) ++ (backoff_delay <$> seq 0 (length errs))).
    { intros w1 Hc1 Hd1. unfold bind, get; simpl.
      unfold closed in Hc1. rewrite Hc1.
      change None with (accumulated 0).
      rewrite (accept_at_failures errs 0%nat w1) by done.
      eexists; split; [done|]. simpl.
      by rewrite delays_app, delays_Delay, Hd1. }
    simpl. destruct upgrade as [c|].
    - unfold bind at 1. unfold bind at 1. simpl.
      unfold bind at 1. simpl.
      unfold detached, serveHttp, bind at 1. simpl.
      unfold closed in Hc. rewrite Hc. simpl.
      apply Hgo; [exact Hc|]. simpl. by rewrite delays_app, app_nil_r.
    - unfold bind at 1. simpl. by apply Hgo. }
  split; [apply backoff_delay_0|].
  split; [apply backoff_delay_S|].
  rewrite Hfresh by (repeat constructor). reflexivity.
Qed.

Definition example_handler : Request -> ConnInfo -> Outcome Response :=
  fun _ _ => Returns (mkResponse "Hello world!" 200).

Definition example_server : world :=
  new_Server (mkServerInit (Some 31337) None example_handler None).

Definition example_addr : Addr := mkAddr "127.0.0.1" 31337.

Lemma accept_backoff_witness :
  accept (failures [BadResource; ConnectionReset]) example_server
  = (Pending, add_log example_server [Delay 5; Delay 10]).
Proof.
  refine (proj1 (accept_backoff example_server
                   [BadResource; ConnectionReset]
                   (mkConn 7 example_addr example_addr) (Some 8%nat)
                   (Some 40) _ _)).
  - reflexivity.
  - repeat constructor.
Defined.

(** *** A dispatch whose two handlers both raise *)

(** C10: when the request handler raises [e1] and the error handler, called
    with [e1], raises [e2], [#respond] ends by throwing [e2] with the world
    untouched: nothing is sent, the connection is neither closed nor
    untracked.  [#serveHttp], which does not await the call, is left with a
    rejected promise nobody handles and goes on to its loop test. *)
Theorem respond_when_both_handlers_raise
    (w : world) (requestEvent : RequestEvent) (httpConn : HttpConn)
    (connInfo : ConnInfo) (e1 e2 : error)
    (rest : list (Outcome (option RequestEvent))) :
  s_handler (self w) (request requestEvent) connInfo = Raises e1 ->
  s_onError (self w) e1 = Raises e2 ->
  respond requestEvent httpConn connInfo w = (Thrown e2, w)
  /\ detached (respond requestEvent httpConn connInfo) w
     = (Normal tt, add_log w [UnhandledRejection e2])
  /\ serveHttp_parked httpConn connInfo
       (Returns (Some requestEvent) :: rest) w
     = (if closed w then closeHttpConn httpConn
        else serveHttp_parked httpConn connInfo rest)
         (add_log w [UnhandledRejection e2]).
Proof.
  intros Hh He.
  assert (Hr : respond requestEvent httpConn connInfo w = (Thrown e2, w)).
  { unfold respond, bind, get, try_catch; simpl. rewrite Hh; simpl.
    by rewrite He. }
  assert (Hd : detached (respond requestEvent httpConn connInfo) w
               = (Normal tt, add_log w [UnhandledRejection e2])).
  { unfold detached. by rewrite Hr. }
  repeat split; [exact Hr|exact Hd|].
  simpl. unfold bind at 1. rewrite Hd. unfold bind, get; simpl.
  unfold closed. by destruct (s_closed (self w)).
Qed.

Definition failing_server : world :=
  mkWorld
    {| s_port := None; s_host := None;
       s_handler := fun _ _ => Raises (OtherError "handler");
       s_closed := false; s_listeners := [];
       s_httpConnections := [8%nat];
       s_onError := fun _ => Raises (OtherError "onError") |}
    [] [].

Lemma respond_when_both_handlers_raise_witness :
  respond (mkRequestEvent "/" (fun _ => Returns tt)) 8%nat
          (mkConnInfo example_addr example_addr) failing_server
  = (Thrown (OtherError "onError"), failing_server).
Proof.
  refine (proj1 (respond_when_both_handlers_raise failing_server
                   (mkRequestEvent "/" (fun _ => Returns tt)) 8%nat
                   (mkConnInfo example_addr example_addr)
                   (OtherError "handler") (OtherError "onError") [] _ _));
    reflexivity.
Defined.

End ServerSpec.

(** ** MuxAsyncIterator *)

Module MuxSpec.
Import Mux.

Section WithTypes.
Context {T E : Type}.
Implicit Types (st : state T E) (ev : event T E).

Lemma raise_throws_eq st :
  raise_throws st
  = match throws st with [] => Normal st | e :: _ => Abrupt e st end.
Proof. unfold raise_throws. by destruct (throws st). Qed.

(** C4: when the drain phase is reached with the failures [e :: rest]
    accumulated, the generator throws [e] and is finished: [rest] is never
    raised, the list is left as it was, and no later [next()] or wake-up
    makes the generator run again.  With two sources that both fail before
    the first drain, the consumer receives the first failure only, and the
    value a third source delivers afterwards is queued but never yielded. *)
Theorem drain_raises_only_the_first_failure
    (st : state T E) (e e2 : E) (rest : list E) (v : T) :
  end_of_cycle (set_throws (e :: rest) st)
    = finish (Throw e) (set_throws (e :: rest) st)
  /\ throws (end_of_cycle (set_throws (e :: rest) st)) = e :: rest
  /\ step Next (end_of_cycle (set_throws (e :: rest) st)) = None
  /\ step Wake (end_of_cycle (set_throws (e :: rest) st)) = None
  /\ (let after :=
        run [Add; Add; Add; Settle 0%nat (Failed e); Settle 1%nat (Failed e2);
             Next; Tick 0%nat; Wake; Settle 2%nat (Value v)]
            MuxAsyncIterator in
      (emitted <$> after) = Some [Throw e]
      /\ (throws <$> after) = Some [e; e2]
      /\ (yields <$> after) = Some [mkYielded 2%nat v]
      /\ (frame <$> after) = Some Completed).
Proof.
  assert (Hend : end_of_cycle (set_throws (e :: rest) st)
                 = finish (Throw e) (set_throws (e :: rest) st))
    by (unfold end_of_cycle; by rewrite raise_throws_eq).
  rewrite Hend. repeat split.
Qed.

(** *** The bookkeeping invariant of the multiplexer *)

(** Nothing has called [resolve] on the signal yet. *)
Definition untouched (d : Deferred.t unit E) : Prop :=
  Deferred.awaiting d = [] /\ Deferred.promise d = Deferred.Unsettled.

(** The signal is only ever resolved, and with [undefined]. *)
Definition signal_ok (d : Deferred.t unit E) : Prop :=
  (forall e, Deferred.promise d <> Deferred.RejectedWith e)
  /\ Forall (fun a => a = Deferred.Plain tt) (Deferred.awaiting d).

(** [iteratorCount] counts the sources that have not reported [done]: those
    with a pull outstanding, those with a value queued that the drain loop
    has not passed yet, and those that failed. *)
Definition accounted (st : state T E) (passed : nat) : Prop :=
  iteratorCount st
  = Z.of_nat (length (pulls st) + (length (yields st) - passed)
              + length (throws st)).

Definition Inv (st : state T E) : Prop :=
  signal_ok (signal st)
  /\ match frame st with
     | Completed => True
     | NotStarted =>
         accounted st 0
         /\ (untouched (signal st) -> yields st = [] /\ throws st = [])
     | AwaitSignal =>
         accounted st 0
         /\ (untouched (signal st) ->
             yields st = [] /\ throws st = [] /\ 0 < iteratorCount st)
     | AtYield i => (i < length (yields st))%nat /\ accounted st i
     end.

Lemma signal_ok_deferred : signal_ok Deferred.deferred.
Proof. split; [done|constructor]. Qed.

Lemma mux_Inv_init : Inv MuxAsyncIterator.
Proof. split; [apply signal_ok_deferred|]. by split. Qed.

Lemma remove_first_length it l :
  it ∈ l -> S (length (remove_first it l)) = length l.
Proof.
  induction l as [|x l IH]; intros Hin; simpl.
  - by apply elem_of_nil in Hin.
  - destruct (Nat.eqb_spec x it) as [->|Hne]; [done|].
    simpl. f_equal. apply IH. apply elem_of_cons in Hin as [->|]; done.
Qed.

Lemma Inv_add st : Inv st -> Inv (add st).
Proof.
  intros [Hs Hf]. split; [exact Hs|]. unfold add, accounted in *. simpl.
  destruct (frame st); simpl in *; rewrite ?length_app; simpl.
  - destruct Hf as [Hc Hu]. split; [lia|exact Hu].
  - destruct Hf as [Hc Hu]. split; [lia|].
    intros H. destruct (Hu H) as (? & ? & ?). repeat split; auto; lia.
  - destruct Hf as [Hi Hc]. split; [exact Hi|lia].
  - done.
Qed.

Lemma Inv_settle st it r :
  it ∈ pulls st -> Inv st -> Inv (callIteratorNext_resume it r st).
Proof.
  intros Hin [[Hrej Haw] Hf].
  pose proof (remove_first_length _ _ Hin) as Hlen.
  assert (Htouched : ~ untouched
            (Deferred.resolve (Deferred.Plain tt) (signal st))).
  { intros [H _]. simpl in H. by destruct (Deferred.awaiting (signal st)). }
  split.
  - split; [exact Hrej|]. simpl. apply Forall_app. split; [exact Haw|].
    by constructor.
  - unfold accounted in *. simpl.
    destruct (frame st); simpl in *.
    + destruct Hf as [Hc _]. split; [|done].
      destruct r; rewrite ?length_app; simpl; lia.
    + destruct Hf as [Hc _]. split; [|done].
      destruct r; rewrite ?length_app; simpl; lia.
    + destruct Hf as [Hi Hc].
      destruct r; rewrite ?length_app; simpl; split; lia.
    + done.
Qed.

Lemma Inv_tick st k c d :
  Deferred.resolve_resume k (signal st) = Some (c, d) ->
  Inv st -> Inv (set_signal d st).
Proof.
  intros Hres [[Hrej Haw] Hf]. unfold Deferred.resolve_resume in Hres.
  destruct (Deferred.awaiting (signal st) !! k) as [a|] eqn:Hk; [|done].
  pose proof (proj1 (Forall_lookup _ _) Haw _ _ Hk) as ->.
  inversion Hres; subst; clear Hres.
  assert (Hp : Deferred.native_resolve tt (Deferred.promise (signal st))
               <> Deferred.Unsettled)
    by (by destruct (Deferred.promise (signal st))).
  split.
  - split; simpl.
    + intros e. specialize (Hrej e).
      by destruct (Deferred.promise (signal st)).
    + by apply Forall_delete.
  - unfold accounted in *. simpl.
    destruct (frame st); simpl in *; try done.
    + destruct Hf as [Hc _]. split; [done|]. by intros [_ H].
    + destruct Hf as [Hc _]. split; [done|]. by intros [_ H].
Qed.

(** Leaving the drain loop with every queued value passed. *)
Lemma Inv_end_of_cycle st :
  signal_ok (signal st) ->
  iteratorCount st = Z.of_nat (length (pulls st) + length (throws st)) ->
  Inv (end_of_cycle st).
Proof.
  intros Hs Hc. unfold end_of_cycle. rewrite raise_throws_eq.
  destruct (throws st) as [|e rest] eqn:Ht.
  - unfold loop_head; simpl.
    destruct (Z.ltb_spec 0 (iteratorCount st)) as [Hpos|Hle].
    + split; [apply signal_ok_deferred|]. simpl.
      unfold accounted; simpl. rewrite Ht. simpl in *.
      split; [lia|]. by intros _.
    + split; [apply signal_ok_deferred|done].
  - by split.
Qed.

Lemma Inv_for_loop st i :
  signal_ok (signal st) -> accounted st i -> (i <= length (yields st))%nat ->
  Inv (for_loop i st).
Proof.
  intros Hs Hc Hi. unfold for_loop.
  destruct (yields st !! i) as [y|] eqn:Hy.
  - split; [exact Hs|]. simpl. split; [|exact Hc].
    by apply lookup_lt_Some in Hy.
  - apply lookup_ge_None in Hy. apply Inv_end_of_cycle; [exact Hs|].
    unfold accounted in Hc. lia.
Qed.

Lemma mux_Inv_step ev st st' : Inv st -> step ev st = Some st' -> Inv st'.
Proof.
  intros HI Hstep. destruct ev as [|it r|k| |]; simpl in Hstep.
  - inversion Hstep; subst. by apply Inv_add.
  - case_bool_decide; [|done]. inversion Hstep; subst. by apply Inv_settle.
  - destruct (Deferred.resolve_resume k (signal st)) as [[c d]|] eqn:Hres;
      [|done].
    inversion Hstep; subst. by eapply Inv_tick.
  - destruct HI as [Hs Hf]. destruct (frame st) eqn:Hfr; try done.
    + inversion Hstep; subst. destruct Hf as [Hc Hu]. unfold loop_head.
      destruct (Z.ltb_spec 0 (iteratorCount st)) as [Hpos|Hle].
      * split; [exact Hs|]. simpl. split; [exact Hc|].
        intros H. destruct (Hu H). by repeat split.
      * by split.
    + destruct (yields st !! i) as [y|] eqn:Hy; [|done].
      inversion Hstep; subst. destruct Hf as [Hi Hc].
      apply Inv_for_loop; simpl; [exact Hs| |lia].
      unfold accounted in *; simpl. rewrite length_app; simpl. lia.
  - destruct HI as [Hs Hf]. destruct (frame st) eqn:Hfr; try done.
    destruct (Deferred.promise (signal st)) eqn:Hp; [done| |].
    + inversion Hstep; subst. destruct Hf as [Hc _].
      apply Inv_for_loop; [exact Hs|exact Hc|lia].
    + inversion Hstep; subst. by split.
Qed.

Lemma mux_Inv_run evs : forall st st',
  Inv st -> run evs st = Some st' -> Inv st'.
Proof.
  induction evs as [|ev evs IH]; intros st st' HI Hrun; simpl in Hrun.
  - by inversion Hrun; subst.
  - destruct (step ev st) as [st1|] eqn:Hstep; [|done].
    simpl in Hrun. eapply IH; [|exact Hrun]. by eapply mux_Inv_step.
Qed.

(** *** When the combined sequence ends *)

Lemma quiescent_facts st :
  Inv st -> iteratorCount st = 0 -> frame st <> Completed ->
  pulls st = [] /\ yields st = [] /\ throws st = []
  /\ (frame st = NotStarted \/ frame st = AwaitSignal).
Proof.
  intros [_ Hf] Hz Hlive. unfold accounted in Hf.
  destruct (frame st) eqn:Hfr; try done.
  - destruct Hf as [Hc _].
    repeat split; [apply nil_length_inv..|by left]; lia.
  - destruct Hf as [Hc _].
    repeat split; [apply nil_length_inv..|by right]; lia.
  - destruct Hf as [Hi Hc]. lia.
Qed.

Lemma for_loop_quiescent st :
  yields st = [] -> throws st = [] -> iteratorCount st = 0 ->
  frame (for_loop 0 st) = Completed
  /\ emitted (for_loop 0 st) = emitted st ++ [Return]
  /\ pulls (for_loop 0 st) = pulls st.
Proof.
  intros Hy Ht Hz. unfold for_loop. rewrite Hy. simpl.
  unfold end_of_cycle. rewrite raise_throws_eq, Ht.
  unfold loop_head. simpl. by rewrite Hz.
Qed.

Lemma completed_stays ev st st' :
  frame st = Completed -> step ev st = Some st' ->
  frame st' = Completed /\ emitted st' = emitted st.
Proof.
  intros Hfr Hstep. destruct ev as [|it r|k| |]; simpl in Hstep.
  - by inversion Hstep; subst.
  - case_bool_decide; [|done]. by inversion Hstep; subst.
  - destruct (Deferred.resolve_resume k (signal st)) as [[c d]|]; [|done].
    by inversion Hstep; subst.
  - by rewrite Hfr in Hstep.
  - by rewrite Hfr in Hstep.
Qed.

Lemma completed_stays_run evs : forall st st',
  frame st = Completed -> run evs st = Some st' -> emitted st' = emitted st.
Proof.
  induction evs as [|ev evs IH]; intros st st' Hfr Hrun; simpl in Hrun.
  - by inversion Hrun; subst.
  - destruct (step ev st) as [st1|] eqn:Hstep; [|done]. simpl in Hrun.
    destruct (completed_stays _ _ _ Hfr Hstep) as [Hfr1 <-].
    by eapply IH.
Qed.

Lemma snoc_neq {A} (l : list A) (x : A) : l <> l ++ [x].
Proof.
  intros H. apply (f_equal length) in H. rewrite length_app in H.
  simpl in H. lia.
Qed.

Lemma Inv_count_nonneg st :
  Inv st -> frame st <> Completed -> 0 <= iteratorCount st.
Proof.
  intros [_ Hf] Hlive. unfold accounted in Hf.
  destruct (frame st); try done; destruct Hf as [H1 H2]; lia.
Qed.

(** A step of a live generator that makes it return does so with nothing
    left over. *)
Lemma return_only_when_drained ev st st' :
  Inv st -> step ev st = Some st' ->
  emitted st' = emitted st ++ [Return] ->
  iteratorCount st' = 0 /\ yields st' = [] /\ throws st' = [].
Proof.
  intros HI Hstep Hem.
  assert (Hend : forall s, 0 <= iteratorCount s ->
            emitted s = emitted st ->
            emitted (end_of_cycle s) = emitted st ++ [Return] ->
            iteratorCount (end_of_cycle s) = 0
            /\ yields (end_of_cycle s) = []
            /\ throws (end_of_cycle s) = []).
  { intros s Hnn Hs. unfold end_of_cycle. rewrite raise_throws_eq.
    destruct (throws s) as [|e rest] eqn:Ht; simpl.
    - unfold loop_head; simpl.
      destruct (Z.ltb_spec 0 (iteratorCount s)) as [Hpos|Hle]; simpl.
      + intros H1. rewrite Hs in H1. by apply snoc_neq in H1.
      + intros _. rewrite Ht. repeat split; lia.
    - intros H1. rewrite Hs in H1. by apply app_inj_tail in H1 as [_ ?]. }
  assert (Hfor : forall i s, 0 <= iteratorCount s ->
            emitted s = emitted st ->
            emitted (for_loop i s) = emitted st ++ [Return] ->
            iteratorCount (for_loop i s) = 0
            /\ yields (for_loop i s) = []
            /\ throws (for_loop i s) = []).
  { intros i s Hnn Hs. unfold for_loop. destruct (yields s !! i); simpl.
    - intros H. rewrite Hs in H. by apply app_inj_tail in H as [_ ?].
    - by apply Hend. }
  destruct ev as [|it r|k| |]; simpl in Hstep.
  - inversion Hstep; subst. simpl in Hem. by apply snoc_neq in Hem.
  - case_bool_decide; [|done]. inversion Hstep; subst. simpl in Hem.
    by apply snoc_neq in Hem.
  - destruct (Deferred.resolve_resume k (signal st)) as [[c d]|]; [|done].
    inversion Hstep; subst. simpl in Hem. by apply snoc_neq in Hem.
  - destruct (frame st) eqn:Hfr; try done.
    + inversion Hstep; subst. unfold loop_head in *.
      destruct (Z.ltb_spec 0 (iteratorCount st)) as [Hpos|Hle]; simpl in *.
      * by apply snoc_neq in Hem.
      * destruct HI as [_ Hf]. rewrite Hfr in Hf. destruct Hf as [Hc _].
        unfold accounted in Hc.
        repeat split; [|apply nil_length_inv..]; lia.
    + destruct (yields st !! i) as [y|] eqn:Hy; [|done].
      inversion Hstep; subst. apply Hfor; [|done|exact Hem]. simpl.
      apply Inv_count_nonneg; [exact HI|by rewrite Hfr].
  - destruct (frame st) eqn:Hfr; try done.
    destruct (Deferred.promise (signal st)); [done| |].
    + inversion Hstep; subst. apply Hfor; [|done|exact Hem].
      apply Inv_count_nonneg; [exact HI|by rewrite Hfr].
    + inversion Hstep; subst. simpl in Hem.
      by apply app_inj_tail in Hem as [_ ?].
Qed.

(** With the count at zero and the generator alive, its own next move makes
    it return. *)
Lemma returns_when_count_is_zero st :
  Inv st -> iteratorCount st = 0 -> frame st <> Completed ->
  exists evs st',
    (evs = [Next] \/ evs = [Wake] \/ evs = [Tick 0%nat; Wake])
    /\ run evs st = Some st'
    /\ frame st' = Completed
    /\ emitted st' = emitted st ++ [Return].
Proof.
  intros HI Hz Hlive.
  destruct (quiescent_facts st HI Hz Hlive) as (Hp & Hy & Ht & [Hfr|Hfr]).
  - exists [Next], (loop_head st). split; [by left|].
    simpl. rewrite Hfr. simpl. unfold loop_head. by rewrite Hz.
  - destruct HI as [[Hrej Haw] Hf]. rewrite Hfr in Hf. destruct Hf as [_ Hu].
    destruct (Deferred.promise (signal st)) as [|[]|e] eqn:Hpr.
    + (* resolve has been called, its continuation has not run yet *)
      destruct (Deferred.awaiting (signal st)) as [|a aw] eqn:Hawait.
      { destruct Hu as (_ & _ & Hpos); [by split|lia]. }
      inversion Haw as [|? ? Ha Haw']; subst.
      set (d := Deferred.mk Deferred.fulfilled (Deferred.FulfilledWith tt) aw
                : Deferred.t unit E).
      assert (Htick : step (Tick 0%nat) st = Some (set_signal d st)).
      { simpl. unfold Deferred.resolve_resume. rewrite Hawait. simpl.
        by rewrite Hpr. }
      destruct (for_loop_quiescent (set_signal d st)) as (H1 & H2 & _);
        [done..|].
      exists [Tick 0%nat; Wake], (for_loop 0 (set_signal d st)).
      split; [by right; right|].
      split; [|by split].
      change (run [Tick 0%nat; Wake] st)
        with (step (Tick 0%nat) st ≫= fun s => step Wake s ≫= Some).
      rewrite Htick. simpl. by rewrite Hfr.
    + destruct (for_loop_quiescent st) as (H1 & H2 & _); [done..|].
      exists [Wake], (for_loop 0 st). split; [by right; left|].
      split; [|by split]. simpl. by rewrite Hfr, Hpr.
    + by destruct (Hrej e).
Qed.

(** Without a source being added, a multiplexer whose count is zero can do
    nothing but return. *)
Lemma quiescent_run more : forall st st',
  Inv st -> iteratorCount st = 0 -> Add ∉ more -> run more st = Some st' ->
  emitted st' = emitted st \/ emitted st' = emitted st ++ [Return].
Proof.
  induction more as [|ev more IH]; intros st st' HI Hz Hadd Hrun;
    simpl in Hrun.
  - inversion Hrun; subst. by left.
  - destruct (step ev st) as [st1|] eqn:Hstep; [|done]. simpl in Hrun.
    apply not_elem_of_cons in Hadd as [Hev Hadd].
    assert (frame st = Completed \/ frame st <> Completed) as [Hfr|Hlive]
      by (destruct (frame st); auto).
    { left. destruct (completed_stays _ _ _ Hfr Hstep) as [Hfr1 <-].
      by eapply completed_stays_run. }
    destruct (quiescent_facts st HI Hz Hlive) as (Hp & Hy & Ht & Hfr).
    pose proof (mux_Inv_step _ _ _ HI Hstep) as HI1.
    destruct ev as [|it r|k| |]; simpl in Hstep; [done|..].
    + rewrite Hp in Hstep. case_bool_decide as Hin; [|done].
      by apply elem_of_nil in Hin.
    + destruct (Deferred.resolve_resume k (signal st)) as [[c d]|]; [|done].
      inversion Hstep; subst. by apply (IH _ _ HI1).
    + destruct Hfr as [Hfr|Hfr]; rewrite Hfr in Hstep; [|done].
      inversion Hstep; subst. right.
      unfold loop_head in *. rewrite Hz in *. simpl in *.
      by rewrite (completed_stays_run more (finish Return st) st'
                    eq_refl Hrun).
    + destruct Hfr as [Hfr|Hfr]; rewrite Hfr in Hstep; [done|].
      destruct (Deferred.promise (signal st)) as [|[]|e] eqn:Hpr; [done| |].
      * inversion Hstep; subst. right.
        destruct (for_loop_quiescent st) as (H1 & H2 & _); [done..|].
        rewrite <- H2. by apply (completed_stays_run more _ st' H1).
      * destruct HI as [[Hrej _] _]. by destruct (Hrej e).
Qed.

(** C7: in any state the multiplexer can reach,
    - a step that makes the generator return leaves the count at zero, no
      queued value and no accumulated failure;
    - conversely, once the count is zero while the generator is alive,
      nothing is queued or accumulated, the generator's next move returns,
      and as long as no source is added the consumer is handed nothing
      but that return;
    and with no source registered the first [next()] returns at once. *)
Theorem combined_sequence_ends_when_drained
    (evs : list (event T E)) (st : state T E) :
  run evs MuxAsyncIterator = Some st ->
  (forall ev st',
     step ev st = Some st' -> emitted st' = emitted st ++ [Return] ->
     iteratorCount st' = 0 /\ yields st' = [] /\ throws st' = [])
  /\ (iteratorCount st = 0 -> frame st <> Completed ->
      yields st = [] /\ throws st = []
      /\ (exists evs' st',
            (evs' = [Next] \/ evs' = [Wake] \/ evs' = [Tick 0%nat; Wake])
            /\ run evs' st = Some st'
            /\ frame st' = Completed
            /\ emitted st' = emitted st ++ [Return])
      /\ (forall more st',
            Add ∉ more -> run more st = Some st' ->
            emitted st' = emitted st
            \/ emitted st' = emitted st ++ [Return]))
  /\ run [Next] (@MuxAsyncIterator T E)
     = Some (finish Return MuxAsyncIterator).
Proof.
  intros Hrun. pose proof (mux_Inv_run _ _ _ mux_Inv_init Hrun) as HI.
  split; [|split; [|done]].
  - intros ev st'. by apply return_only_when_drained.
  - intros Hz Hlive.
    destruct (quiescent_facts st HI Hz Hlive) as (Hp & Hy & Ht & Hfr).
    split; [exact Hy|]. split; [exact Ht|].
    split; [by apply returns_when_count_is_zero|].
    intros more st'. by apply quiescent_run.
Qed.


End WithTypes.

(** A source is registered, the consumer asks for a value, the source
    reports that it is exhausted: the count is back at zero while the
    generator is parked at [await this.signal]. *)
Definition drained_example : state nat nat :=
  {| iteratorCount := 0; yields := []; throws := [];
     signal := Deferred.mk Deferred.pending Deferred.Unsettled
                 [Deferred.Plain tt];
     pulls := []; fresh := 1%nat; frame := AwaitSignal; emitted := [] |}.

Lemma combined_sequence_ends_when_drained_witness :
  exists evs' st',
    (evs' = [Next] \/ evs' = [Wake] \/ evs' = [Tick 0%nat; Wake])
    /\ run evs' drained_example = Some st'
    /\ frame st' = Completed
    /\ emitted st' = [Return].
Proof.
  pose proof (combined_sequence_ends_when_drained
                [Add; Next; Settle 0%nat Done] drained_example eq_refl)
    as (_ & H & _).
  destruct (H eq_refl) as (_ & _ & Hex & _); [discriminate|].
  exact Hex.
Defined.

End MuxSpec.

(** ** pooledMap *)

Module PoolSpec.
Import Pool.

(** *** [indexOf] followed by [splice] removes the element *)

Lemma filter_ne_absent (l : list nat) (x : nat) :
  x ∉ l -> filter (fun y => y <> x) l = l.
Proof.
  induction l as [|z l IH]; intros Hx; [done|].
  apply not_elem_of_cons in Hx as [Hz Hx].
  rewrite filter_cons_True by congruence. by rewrite IH.
Qed.

Lemma indexOf_from_elem (l : list nat) (x : nat) :
  NoDup l -> x ∈ l ->
  forall i, exists k : nat,
    JsArray.indexOf_from i l x = i + Z.of_nat k
    /\ (k < length l)%nat
    /\ delete k l = filter (fun y => y <> x) l.
Proof.
  induction l as [|y l IH]; intros Hnd Hin i.
  - by apply elem_of_nil in Hin.
  - apply NoDup_cons in Hnd as [Hy Hnd]. simpl.
    destruct (Nat.eqb_spec y x) as [->|Hne].
    + exists 0%nat. split; [lia|]. split; [simpl; lia|]. simpl.
      rewrite filter_cons_False by (intros H; by apply H).
      by rewrite filter_ne_absent.
    + apply elem_of_cons in Hin as [->|Hin]; [done|].
      destruct (IH Hnd Hin (i + 1)) as (k & Hk & Hlt & Hdel).
      exists (S k). split; [lia|]. split; [simpl; lia|]. simpl.
      rewrite filter_cons_True by done. by rewrite Hdel.
Qed.

Lemma splice1_indexOf (l : list nat) (x : nat) :
  NoDup l -> x ∈ l ->
  JsArray.splice1 (JsArray.indexOf l x) l = filter (fun y => y <> x) l.
Proof.
  intros Hnd Hin.
  destruct (indexOf_from_elem l x Hnd Hin 0) as (k & Hk & Hlt & Hdel).
  unfold JsArray.splice1, JsArray.indexOf. rewrite Hk.
  destruct (Z.ltb_spec (0 + Z.of_nat k) 0) as [?|_]; [lia|].
  replace (Z.to_nat (Z.min (0 + Z.of_nat k) (Z.of_nat (length l)))) with k
    by lia.
  exact Hdel.
Qed.

(** *** Counting and collecting by position *)

Lemma count_by_index {A} (f : A -> bool) (g : nat -> Prop)
    `{!forall i, Decision (g i)} (l : list A) :
  (forall i x, l !! i = Some x -> f x = true -> g i) ->
  (length (List.filter f l) <= length (filter g (seq 0 (length l))))%nat.
Proof.
  induction l as [|x l IH] using rev_ind; intros Hfg; [simpl; lia|].
  rewrite List.filter_app, !length_app. simpl.
  rewrite Nat.add_1_r, seq_S, filter_app, length_app. simpl.
  assert (length (List.filter f l)
          <= length (filter g (seq 0 (length l))))%nat as Hl.
  { apply IH. intros i y Hi. apply Hfg. by apply lookup_app_l_Some. }
  destruct (f x) eqn:Hfx; simpl; [|lia].
  rewrite filter_cons_True; [simpl; lia|].
  apply (Hfg (length l) x); [|done].
  rewrite lookup_app_r by lia. by rewrite Nat.sub_diag.
Qed.

Lemma omap_by_index {A B} (f : A -> option B) (l : list A) :
  omap (fun i => l !! i ≫= f) (seq 0 (length l)) = omap f l.
Proof.
  induction l as [|x l IH] using rev_ind; [done|].
  rewrite length_app. simpl. rewrite Nat.add_1_r, seq_S, !omap_app. simpl.
  rewrite lookup_app_r by lia. rewrite Nat.sub_diag. simpl.
  f_equal. rewrite <- IH. apply list_omap_ext.
  apply Forall_Forall2_diag, Forall_forall. intros i Hi.
  apply elem_of_seq in Hi. rewrite lookup_app_l by lia. done.
Qed.

Lemma omap_sublist {A B} (f : A -> option B) (l1 l2 : list A) :
  l1 `sublist_of` l2 ->
  (forall x, x ∈ l2 -> x ∉ l1 -> f x = None) ->
  NoDup l2 ->
  omap f l1 = omap f l2.
Proof.
  induction 1 as [|x l1 l2 Hsub IH|x l1 l2 Hsub IH]; intros Hf Hnd.
  - done.
  - apply NoDup_cons in Hnd as [Hx Hnd]. csimpl.
    rewrite IH; [done| |done].
    intros y Hy Hny. apply Hf; [by right|].
    intros [->|?]%elem_of_cons; [done|done].
  - apply NoDup_cons in Hnd as [Hx Hnd]. csimpl.
    rewrite (Hf x); [|by left|].
    + apply IH; [|done]. intros y Hy Hny. apply Hf; [by right|done].
    + intros Hin. apply Hx. by eapply elem_of_sublist.
Qed.

Lemma omap_alter_same {A B} (f : A -> option B) (g : A -> A) i (l : list A) :
  (forall x, l !! i = Some x -> f (g x) = f x) ->
  omap f (alter g i l) = omap f l.
Proof.
  revert i. induction l as [|y l IH]; intros [|i] H; csimpl; try done.
  - by rewrite (H y).
  - by rewrite IH.
Qed.

Lemma omap_alter_gain {A B} (f : A -> option B) (g : A -> A) i (l : list A)
    x v :
  l !! i = Some x -> f x = None -> f (g x) = Some v ->
  omap f (alter g i l) ≡ₚ omap f l ++ [v].
Proof.
  revert i. induction l as [|y l IH]; intros [|i] Hi Hx Hg; csimpl in *;
    try done.
  - inversion Hi; subst. rewrite Hg, Hx.
    by rewrite <- Permutation_cons_append.
  - destruct (f y); csimpl; [f_equiv|]; by apply IH.
Qed.

Lemma length_subseteq_lt (l k : list nat) x :
  NoDup l -> l ⊆ k -> x ∈ k -> x ∉ l -> (length l < length k)%nat.
Proof.
  intros Hnd Hsub Hx Hnx.
  assert (l ⊆+ filter (fun y => y <> x) k) as Hle.
  { apply NoDup_submseteq; [done|]. intros y Hy.
    apply list_elem_of_filter. split; [by intros ->|by apply Hsub]. }
  apply submseteq_length in Hle.
  pose proof (length_filter_lt (fun y => y <> x) k x Hx) as Hlt.
  specialize (Hlt ltac:(intros H; by apply H)). lia.
Qed.

Lemma filter_ext_elem {A} (P Q : A -> Prop) `{!forall x, Decision (P x)}
    `{!forall x, Decision (Q x)} (l : list A) :
  (forall x, x ∈ l -> P x <-> Q x) -> filter P l = filter Q l.
Proof.
  induction l as [|x l IH]; intros Hext; [done|].
  rewrite !filter_cons.
  rewrite IH by (intros y Hy; apply Hext; by right).
  pose proof (Hext x ltac:(by left)) as Hx.
  destruct (decide (P x)) as [HP|HP], (decide (Q x)) as [HQ|HQ]; tauto.
Qed.

(** *** The invariant of the mapper *)

Section WithTypes.
Context {T R E : Type}.
Implicit Types (st : state T R E) (t : Task T R E).

(** A transformation that has not been spliced out of [executing]. *)
Definition live st (id : nat) : Prop := is_fulfilled st id = false.

#[local] Instance live_dec st id : Decision (live st id).
Proof. unfold live. apply _. Defined.

Definition value_of t : option R :=
  match progress t with Reacted (Fulfilled v) => Some v | _ => None end.

Definition failure_of t : option E :=
  match progress t with Reacted (Rejected r) => Some r | _ => None end.

(** The results of the transformations that have succeeded, and the
    reasons of those that have failed, both in launch order. *)
Definition fulfilled_values st : list R := omap value_of (tasks st).
Definition failures st : list E := omap failure_of (tasks st).

(** The number of slots the loop really works with. *)
Definition bound st : Z := Z.max (poolLimit st) 1.

(** The last thing written once the async function has finished. *)
Definition terminal st : list (Written R E) :=
  match main st with
  | Finished =>
      [match failures st with [] => Close | errs => AggregateError errs end]
  | _ => []
  end.

Definition frame_inv st : Prop :=
  let ids := seq 0 (length (tasks st)) in
  match main st with
  | ForAwait => Z.of_nat (length (executing st)) < bound st
  | AwaitRace snapshot =>
      snapshot <> [] /\ snapshot `sublist_of` ids
      /\ executing st ⊆ snapshot
      /\ Z.of_nat (length snapshot) <= bound st
  | AwaitAll snapshot =>
      array st = [] /\ snapshot `sublist_of` ids /\ executing st ⊆ snapshot
  | AwaitAllSettled snapshot =>
      snapshot `sublist_of` ids /\ executing st ⊆ snapshot
      /\ (exists id r, id ∈ snapshot /\ rejection st id = Some r)
  | Finished => forall id, (id < length (tasks st))%nat -> is_reacted st id = true
  end.

Record Inv st : Prop := mkInv {
  inv_executing :
    executing st = filter (live st) (seq 0 (length (tasks st)));
  inv_bound : Z.of_nat (length (executing st)) <= bound st;
  inv_frame : frame_inv st;
  inv_written :
    exists vs, vs ≡ₚ fulfilled_values st
               /\ written st = (Chunk <$> vs) ++ terminal st
}.

Lemma pool_Inv_init limit arr fn : Inv (pooledMap limit arr fn).
Proof.
  split; simpl; try done.
  - unfold bound; simpl. lia.
  - unfold frame_inv, bound; simpl. lia.
  - by exists [].
Qed.

Lemma executing_NoDup st : Inv st -> NoDup (executing st).
Proof.
  intros HI. rewrite (inv_executing st HI).
  apply NoDup_filter, NoDup_seq.
Qed.

Lemma executing_elem st id :
  Inv st ->
  id ∈ executing st <-> (id < length (tasks st))%nat /\ live st id.
Proof.
  intros HI. rewrite (inv_executing st HI), list_elem_of_filter, elem_of_seq.
  split; intros [? ?]; split; auto; lia.
Qed.

Lemma executing_sublist st :
  Inv st -> executing st `sublist_of` seq 0 (length (tasks st)).
Proof. intros HI. rewrite (inv_executing st HI). apply sublist_filter. Qed.

Lemma progress_of_bound st id p :
  progress_of st id = Some p -> (id < length (tasks st))%nat.
Proof.
  unfold progress_of. destruct (tasks st !! id) eqn:H; [|done].
  intros _. by apply lookup_lt_Some in H.
Qed.

Lemma rejection_failure st id : rejection st id = tasks st !! id ≫= failure_of.
Proof.
  unfold rejection, progress_of, failure_of.
  destruct (tasks st !! id) as [[x [|s|[v|r]]]|]; done.
Qed.

(** The transformations in flight all sit in [executing]. *)
Lemma unsettled_le_executing st :
  Inv st -> (unsettled st <= length (executing st))%nat.
Proof.
  intros HI. rewrite (inv_executing st HI). unfold unsettled.
  apply count_by_index. intros i t Hi Hrun.
  unfold live, is_fulfilled, progress_of. rewrite Hi. simpl.
  unfold is_running in Hrun. by destruct (progress t).
Qed.

(** *** Preservation *)

Lemma progress_of_alter (l : list (Task T R E)) id p id' :
  progress <$> alter (fun t => mkTask (item t) p) id l !! id'
  = if decide (id = id') then (fun _ => p) <$> l !! id'
    else progress <$> l !! id'.
Proof.
  rewrite list_lookup_alter. case_decide; subst; [|done].
  by destruct (l !! id').
Qed.

(** A transformation moves on without becoming fulfilled: [p] settles, or
    the rejection of [p] reaches [e]. *)
Lemma Inv_relabel st id q p :
  progress_of st id = Some q ->
  (forall s, q <> Reacted s) -> (forall v, p <> Reacted (Fulfilled v)) ->
  Inv st -> Inv (set_progress id p st).
Proof.
  intros Hq Hold Hnew HI.
  pose proof (progress_of_bound _ _ _ Hq) as Hid.
  unfold progress_of in Hq.
  destruct (tasks st !! id) as [t|] eqn:Ht; [|done].
  simpl in Hq. inversion Hq as [Hpt]. clear Hq.
  assert (Hq_live : forall s, progress t <> Reacted s)
    by (by rewrite Hpt).
  assert (Hp_live : match p with Reacted (Fulfilled _) => False | _ => True end).
  { destruct p as [|s|[v|r]]; try done. by apply (Hnew v). }
  assert (Hful : forall id',
            is_fulfilled (set_progress id p st) id' = is_fulfilled st id').
  { intros id'. unfold is_fulfilled, progress_of, set_progress; simpl.
    rewrite progress_of_alter. case_decide; subst; [|done].
    rewrite Ht. simpl.
    destruct p as [|s|[v|r]], (progress t) as [|s'|s'] eqn:Hpr; try done;
      by destruct (Hq_live s'). }
  assert (Hrea : forall id',
            is_reacted st id' = true ->
            is_reacted (set_progress id p st) id' = true).
  { intros id'. unfold is_reacted, progress_of, set_progress; simpl.
    rewrite progress_of_alter. case_decide; subst; [|done].
    rewrite Ht. simpl.
    destruct (progress t) as [|s'|s'] eqn:Hpr; try done.
    by destruct (Hq_live s'). }
  assert (Hrej : forall id' r,
            rejection st id' = Some r ->
            rejection (set_progress id p st) id' = Some r).
  { intros id' r. unfold rejection, progress_of, set_progress; simpl.
    rewrite progress_of_alter. case_decide; subst; [|done].
    rewrite Ht. simpl.
    destruct (progress t) as [|s'|s'] eqn:Hpr; try done.
    by destruct (Hq_live s'). }
  assert (Hlive : main st <> Finished).
  { intros Hfin. pose proof (inv_frame st HI) as Hf.
    unfold frame_inv in Hf. rewrite Hfin in Hf.
    specialize (Hf id Hid).
    unfold is_reacted, progress_of in Hf. rewrite Ht in Hf. simpl in Hf.
    destruct (progress t) as [|s'|s'] eqn:Hpr; try done.
    by destruct (Hq_live s'). }
  assert (Hval : fulfilled_values (set_progress id p st)
                 = fulfilled_values st).
  { unfold fulfilled_values, set_progress; simpl.
    apply omap_alter_same. intros t' Ht'. rewrite Ht in Ht'.
    inversion Ht'; subst t'. unfold value_of; simpl.
    destruct p as [|s|[v|r]], (progress t) as [|s'|s'] eqn:Hpr; try done;
      by destruct (Hq_live s'). }
  split.
  - simpl. rewrite length_alter, (inv_executing st HI).
    apply list_filter_iff. intros id'. unfold live. by rewrite Hful.
  - exact (inv_bound st HI).
  - pose proof (inv_frame st HI) as Hf. unfold frame_inv in *. simpl.
    rewrite length_alter. destruct (main st) eqn:Hm; try done.
    destruct Hf as (H1 & H2 & id' & r & H3 & H4).
    repeat split; try done. exists id', r. split; [done|]. by apply Hrej.
  - destruct (inv_written st HI) as (vs & Hvs & Hw). exists vs.
    rewrite Hval. split; [done|]. simpl. rewrite Hw.
    unfold terminal; simpl. by destruct (main st).
Qed.

(** The reactions of a fulfilled [p]: the value is written and [e] is
    spliced out of [executing]. *)
Lemma Inv_react_fulfilled st id v :
  progress_of st id = Some (Settled (Fulfilled v)) ->
  Inv st -> Inv (react id (Fulfilled v) st).
Proof.
  intros Hq HI.
  pose proof (progress_of_bound _ _ _ Hq) as Hid.
  assert (Hin : id ∈ executing st).
  { apply executing_elem; [done|]. split; [done|].
    unfold live, is_fulfilled. by rewrite Hq. }
  assert (Hex : executing (react id (Fulfilled v) st)
                = filter (fun y => y <> id) (executing st)).
  { simpl. apply splice1_indexOf; [by apply executing_NoDup|done]. }
  assert (Hful : forall id',
            is_fulfilled (react id (Fulfilled v) st) id' = false
            <-> is_fulfilled st id' = false /\ id' <> id).
  { intros id'. unfold is_fulfilled, progress_of; simpl.
    rewrite progress_of_alter. case_decide; subst.
    - unfold progress_of in Hq. destruct (tasks st !! id'); [|done].
      simpl. split; [done|]. by intros [_ ?].
    - split; [by intros ?|by intros [? _]]. }
  assert (Hrej : forall id' r,
            rejection st id' = Some r ->
            rejection (react id (Fulfilled v) st) id' = Some r).
  { intros id' r. unfold rejection, progress_of; simpl.
    rewrite progress_of_alter. case_decide; subst; [|done].
    unfold progress_of in Hq. by rewrite Hq. }
  assert (Hlive : main st <> Finished).
  { intros Hfin. pose proof (inv_frame st HI) as Hf.
    unfold frame_inv in Hf. rewrite Hfin in Hf.
    specialize (Hf id Hid). unfold is_reacted in Hf. by rewrite Hq in Hf. }
  assert (Hsub : executing (react id (Fulfilled v) st) ⊆ executing st).
  { rewrite Hex. apply list_subseteq_filter. }
  assert (Hlen : (length (executing (react id (Fulfilled v) st))
                  <= length (executing st))%nat).
  { rewrite Hex. apply length_filter. }
  assert (Hval : fulfilled_values (react id (Fulfilled v) st)
                 ≡ₚ fulfilled_values st ++ [v]).
  { unfold fulfilled_values. cbn [tasks react]. unfold progress_of in Hq.
    destruct (tasks st !! id) as [t|] eqn:Ht; [|done].
    simpl in Hq. inversion Hq as [Hq'].
    eapply omap_alter_gain; [exact Ht| |]; unfold value_of; simpl;
      [by rewrite Hq'|done]. }
  assert (Hn : length (tasks (react id (Fulfilled v) st))
               = length (tasks st)) by (simpl; by rewrite length_alter).
  assert (Hm : main (react id (Fulfilled v) st) = main st) by done.
  assert (Hpl : poolLimit (react id (Fulfilled v) st) = poolLimit st) by done.
  assert (Har : array (react id (Fulfilled v) st) = array st) by done.
  assert (Hwr : written (react id (Fulfilled v) st)
                = written st ++ [Chunk v]) by done.
  set (st' := react id (Fulfilled v) st) in *. clearbody st'.
  split.
  - rewrite Hex, Hn, (inv_executing st HI), list_filter_filter.
    apply list_filter_iff. intros id'. unfold live. rewrite Hful. tauto.
  - pose proof (inv_bound st HI). unfold bound in *. rewrite Hpl. lia.
  - pose proof (inv_frame st HI) as Hf. unfold frame_inv, bound in *.
    rewrite Hm, Hn, Hpl, Har. destruct (main st) eqn:Hmain; try done.
    + lia.
    + destruct Hf as (H1 & H2 & H3 & H4). repeat split; try done.
      by etrans.
    + destruct Hf as (H1 & H2 & H3). repeat split; try done. by etrans.
    + destruct Hf as (H1 & H2 & id' & r & H3 & H4).
      repeat split; try done; [by etrans|].
      exists id', r. split; [done|]. by apply Hrej.
  - destruct (inv_written st HI) as (vs & Hvs & Hw). exists (vs ++ [v]).
    split; [by rewrite Hval, Hvs|].
    rewrite Hwr, Hw. unfold terminal. rewrite Hm.
    destruct (main st); try done; by rewrite fmap_app, !app_nil_r.
Qed.

Lemma Inv_launch st x rest :
  main st = ForAwait -> Inv st -> Inv (launch x rest st).
Proof.
  intros Hm HI.
  set (n := length (tasks st)).
  assert (Hful : forall id, (id < n)%nat ->
            is_fulfilled (launch x rest st) id = is_fulfilled st id).
  { intros id Hid. unfold is_fulfilled, progress_of; simpl.
    by rewrite lookup_app_l. }
  assert (Hnew : is_fulfilled (launch x rest st) n = false).
  { unfold is_fulfilled, progress_of; simpl.
    rewrite lookup_app_r by done. by rewrite Nat.sub_diag. }
  assert (Hex : executing (launch x rest st)
                = filter (live (launch x rest st))
                    (seq 0 (length (tasks (launch x rest st))))).
  { simpl. rewrite length_app. simpl. rewrite Nat.add_1_r, seq_S, filter_app.
    simpl. rewrite (filter_cons_True _ n) by exact Hnew.
    f_equal. rewrite (inv_executing st HI). apply filter_ext_elem.
    intros id Hid. apply elem_of_seq in Hid. unfold live.
    rewrite Hful by (unfold n; lia). done. }
  pose proof (inv_frame st HI) as Hf. unfold frame_inv in Hf.
  rewrite Hm in Hf.
  assert (Hex2 : executing (launch x rest st) = executing st ++ [n]) by done.
  assert (Hmain : main (launch x rest st)
                  = if Z.of_nat (length (executing (launch x rest st)))
                       >=? poolLimit st
                    then AwaitRace (executing (launch x rest st))
                    else ForAwait) by done.
  assert (Hpl : poolLimit (launch x rest st) = poolLimit st) by done.
  assert (Hwr : written (launch x rest st) = written st) by done.
  assert (Hval : fulfilled_values (launch x rest st) = fulfilled_values st).
  { unfold fulfilled_values. simpl. rewrite omap_app. simpl.
    by rewrite app_nil_r. }
  set (st' := launch x rest st) in *. clearbody st'.
  assert (Hlen : Z.of_nat (length (executing st')) <= bound st).
  { rewrite Hex2, length_app. simpl. lia. }
  split.
  - exact Hex.
  - unfold bound in *. by rewrite Hpl.
  - unfold frame_inv, bound in *. rewrite Hmain, Hpl.
    destruct (Z.geb_spec (Z.of_nat (length (executing st'))) (poolLimit st))
      as [Hge|Hlt].
    + repeat split.
      * rewrite Hex2. by destruct (executing st).
      * rewrite Hex. apply sublist_filter.
      * done.
      * exact Hlen.
    + lia.
  - destruct (inv_written st HI) as (vs & Hvs & Hw). exists vs.
    rewrite Hval, Hwr, Hw. split; [done|]. f_equal.
    unfold terminal. rewrite Hmain, Hm. by destruct (_ >=? _).
Qed.

Lemma Inv_set_main st m :
  main st <> Finished -> m <> Finished ->
  Inv st -> frame_inv (set_main m st) -> Inv (set_main m st).
Proof.
  intros Hm Hm' HI Hf. split.
  - exact (inv_executing st HI).
  - exact (inv_bound st HI).
  - exact Hf.
  - destruct (inv_written st HI) as (vs & Hvs & Hw). exists vs.
    split; [done|]. simpl. rewrite Hw. unfold terminal; simpl.
    by destruct (main st), m.
Qed.

Lemma Inv_catch st id r :
  main st <> Finished -> rejection st id = Some r ->
  Inv st -> Inv (catch_block st).
Proof.
  intros Hm Hrej HI. apply Inv_set_main; try done.
  unfold frame_inv; simpl. split; [by apply executing_sublist|].
  split; [done|]. exists id, r. split; [|done].
  apply executing_elem; [done|]. unfold rejection in Hrej.
  destruct (progress_of st id) as [p|] eqn:Hp; [|done].
  split; [by eapply progress_of_bound|].
  unfold live, is_fulfilled. rewrite Hp.
  by destruct p as [|s|[v|r']].
Qed.

(** When every promise waited for is settled, every transformation is:
    the others had been spliced out before. *)
Lemma all_reacted st snapshot :
  Inv st -> executing st ⊆ snapshot ->
  forallb (is_reacted st) snapshot = true ->
  forall id, (id < length (tasks st))%nat -> is_reacted st id = true.
Proof.
  intros HI Hsub Hall id Hid.
  destruct (is_fulfilled st id) eqn:Hful.
  - unfold is_fulfilled in Hful. unfold is_reacted.
    by destruct (progress_of st id) as [[|s|[v|r]]|].
  - assert (id ∈ snapshot) as Hin
      by (apply Hsub; by apply executing_elem).
    rewrite forallb_forall in Hall. apply Hall. by apply list_elem_of_In.
Qed.

Lemma failures_collect st snapshot :
  Inv st -> snapshot `sublist_of` seq 0 (length (tasks st)) ->
  executing st ⊆ snapshot ->
  collect_errors st snapshot = failures st.
Proof.
  intros HI Hsl Hsub. unfold collect_errors, failures.
  rewrite <- (omap_by_index failure_of (tasks st)).
  rewrite (omap_sublist (rejection st) snapshot (seq 0 (length (tasks st))));
    [|done| |apply NoDup_seq].
  - apply list_omap_ext, Forall_Forall2_diag, Forall_forall.
    intros id _. apply rejection_failure.
  - intros id Hid Hnin. apply elem_of_seq in Hid.
    destruct (is_fulfilled st id) eqn:Hful.
    + unfold is_fulfilled in Hful. unfold rejection.
      by destruct (progress_of st id) as [[|s|[v|r]]|].
    + destruct Hnin. apply Hsub. apply executing_elem; [done|].
      split; [lia|done].
Qed.

Lemma Inv_close st snapshot :
  main st = AwaitAll snapshot ->
  forallb (is_fulfilled st) snapshot = true ->
  Inv st -> Inv (write Close st).
Proof.
  intros Hm Hall HI.
  pose proof (inv_frame st HI) as Hf. unfold frame_inv in Hf.
  rewrite Hm in Hf. destruct Hf as (Harr & Hsl & Hsub).
  assert (Hfulall : forall id, (id < length (tasks st))%nat ->
                      is_fulfilled st id = true).
  { intros id Hid. destruct (is_fulfilled st id) eqn:Hful; [done|].
    assert (id ∈ snapshot) as Hin
      by (apply Hsub; by apply executing_elem).
    rewrite <- Hful.
    apply (proj1 (forallb_forall _ _) Hall). by apply list_elem_of_In. }
  assert (Hnofail : failures st = []).
  { rewrite <- (failures_collect st snapshot) by done.
    unfold collect_errors. clear -Hall.
    induction snapshot as [|id l IH]; [done|].
    simpl in Hall. apply andb_prop in Hall as [H1 H2]. csimpl.
    unfold rejection. unfold is_fulfilled in H1.
    destruct (progress_of st id) as [[|s|[v|r]]|]; try done. by apply IH. }
  split.
  - exact (inv_executing st HI).
  - exact (inv_bound st HI).
  - unfold frame_inv; simpl. intros id Hid. specialize (Hfulall id Hid).
    unfold is_fulfilled in Hfulall. unfold is_reacted.
    change (progress_of (write Close st) id) with (progress_of st id).
    by destruct (progress_of st id) as [[|s|[v|r]]|].
  - destruct (inv_written st HI) as (vs & Hvs & Hw). exists vs.
    split; [done|]. simpl. rewrite Hw. unfold terminal. rewrite Hm. simpl.
    change (failures (write Close st)) with (failures st).
    by rewrite Hnofail, app_nil_r.
Qed.

Lemma Inv_aggregate st snapshot :
  main st = AwaitAllSettled snapshot ->
  forallb (is_reacted st) snapshot = true ->
  Inv st ->
  Inv (write (AggregateError (collect_errors st snapshot)) st).
Proof.
  intros Hm Hall HI.
  pose proof (inv_frame st HI) as Hf. unfold frame_inv in Hf.
  rewrite Hm in Hf. destruct Hf as (Hsl & Hsub & id & r & Hin & Hrej).
  pose proof (failures_collect st snapshot HI Hsl Hsub) as Hcol.
  assert (Hne : failures st <> []).
  { rewrite <- Hcol. unfold collect_errors. intros Hnil.
    assert (r ∈ omap (rejection st) snapshot) as Hr
      by (apply list_elem_of_omap; eauto).
    rewrite Hnil in Hr. by apply elem_of_nil in Hr. }
  split.
  - exact (inv_executing st HI).
  - exact (inv_bound st HI).
  - unfold frame_inv; simpl. by apply (all_reacted st snapshot).
  - destruct (inv_written st HI) as (vs & Hvs & Hw). exists vs.
    split; [done|]. simpl. rewrite Hw. unfold terminal. rewrite Hm. simpl.
    change (failures (write _ st)) with (failures st).
    rewrite app_nil_r, Hcol. by destruct (failures st).
Qed.

Lemma pool_Inv_step ev st st' : Inv st -> step ev st = Some st' -> Inv st'.
Proof.
  intros HI Hstep. destruct ev as [|id|id|id| |id|]; simpl in Hstep.
  - destruct (main st) eqn:Hm; try done.
    destruct (array st) as [|x rest] eqn:Harr; inversion Hstep; subst.
    + apply Inv_set_main; try done; [by rewrite Hm|].
      unfold frame_inv; simpl. split; [done|].
      split; [by apply executing_sublist|done].
    + by apply Inv_launch.
  - destruct (tasks st !! id) as [[x [|s|s]]|] eqn:Ht; try done.
    inversion Hstep; subst.
    apply (Inv_relabel st id Running); try done.
    unfold progress_of. by rewrite Ht.
  - destruct (progress_of st id) as [[|s|s]|] eqn:Hp; try done.
    inversion Hstep; subst. destruct s as [v|r].
    + by apply Inv_react_fulfilled.
    + apply (Inv_relabel st id (Settled (Rejected r))); done.
  - destruct (main st) eqn:Hm; try done.
    case_bool_decide as Hin; [|done].
    destruct (progress_of st id) as [[|s|[v|r]]|] eqn:Hp; try done;
      inversion Hstep; subst.
    + apply Inv_set_main; try done; [by rewrite Hm|].
      pose proof (inv_frame st HI) as Hf. unfold frame_inv in *.
      rewrite Hm in Hf. destruct Hf as (Hne & Hsl & Hsub & Hlen). simpl.
      assert (id ∉ executing st) as Hnin.
      { intros [_ Hl]%executing_elem; [|done].
        unfold live, is_fulfilled in Hl. by rewrite Hp in Hl. }
      pose proof (length_subseteq_lt (executing st) snapshot id
                    (executing_NoDup st HI) Hsub Hin Hnin).
      unfold bound in *. simpl. lia.
    + apply (Inv_catch st id r); try done; [by rewrite Hm|].
      unfold rejection. by rewrite Hp.
  - destruct (main st) eqn:Hm; try done.
    destruct (forallb (is_fulfilled st) snapshot) eqn:Hall; [|done].
    inversion Hstep; subst. by eapply Inv_close.
  - destruct (main st) eqn:Hm; try done.
    case_bool_decide as Hin; [|done].
    destruct (rejection st id) as [r|] eqn:Hrej; [|done].
    inversion Hstep; subst.
    apply (Inv_catch st id r); try done. by rewrite Hm.
  - destruct (main st) eqn:Hm; try done.
    destruct (forallb (is_reacted st) snapshot) eqn:Hall; [|done].
    inversion Hstep; subst. by eapply Inv_aggregate.
Qed.

Lemma pool_Inv_run evs : forall st st',
  Inv st -> run evs st = Some st' -> Inv st'.
Proof.
  induction evs as [|ev evs IH]; intros st st' HI Hrun; simpl in Hrun.
  - by inversion Hrun; subst.
  - destruct (step ev st) as [st1|] eqn:Hstep; [|done].
    simpl in Hrun. eapply IH; [|exact Hrun]. by eapply pool_Inv_step.
Qed.

(** *** What has been launched, and how each transformation ends *)



Definition faithful (fn : T -> Settlement R E) t : Prop :=
  match progress t with
  | Running => True
  | Settled s | Reacted s => s = fn (item t)
  end.

(** The parameters stay what they were; the inputs pulled so far are a
    prefix of the source, one transformation each; and a transformation
    settles the way [iteratorFn] says. *)
Record Tied (limit : Z) (arr : list T) (fn : T -> Settlement R E) st
  : Prop := mkTied {
  tied_limit : poolLimit st = limit;
  tied_fn : iteratorFn st = fn;
  tied_source : (item <$> tasks st) ++ array st = arr;
  tied_outcome : Forall (faithful fn) (tasks st)
}.

Lemma Tied_init limit arr fn : Tied limit arr fn (pooledMap limit arr fn).
Proof. by split. Qed.

Lemma item_alter (l : list (Task T R E)) id p :
  item <$> alter (fun t => mkTask (item t) p) id l = item <$> l.
Proof.
  revert id. induction l as [|t l IH]; intros [|id]; csimpl; try done.
  f_equal. apply IH.
Qed.

Lemma Tied_step limit arr fn ev st st' :
  Tied limit arr fn st -> step ev st = Some st' -> Tied limit arr fn st'.
Proof.
  intros [Hl Hfn Hsrc Hout] Hstep.
  destruct ev as [|id|id|id| |id|]; simpl in Hstep.
  - destruct (main st); try done.
    destruct (array st) as [|x rest] eqn:Harr; inversion Hstep; subst;
      split; simpl; try done.
    + by rewrite Harr.
    + rewrite fmap_app. simpl. by rewrite <- app_assoc.
    + apply Forall_app. split; [done|]. by repeat constructor.
  - destruct (tasks st !! id) as [[x [|s|s]]|] eqn:Ht; try done.
    inversion Hstep; subst. split; simpl; try done.
    + by rewrite item_alter.
    + apply Forall_alter; [done|]. intros t Ht' _.
      rewrite Ht in Ht'. by inversion Ht'; subst.
  - destruct (progress_of st id) as [[|s|s]|] eqn:Hp; try done.
    inversion Hstep; subst.
    assert (Hgoal : Forall (faithful (iteratorFn st))
              (alter (fun t => mkTask (item t) (Reacted s)) id (tasks st))).
    { apply Forall_alter; [done|]. intros t Ht Hft.
      unfold progress_of in Hp. rewrite Ht in Hp. simpl in Hp.
      unfold faithful in *. simpl. inversion Hp as [Hp'].
      by rewrite Hp' in Hft. }
    destruct s as [v|r]; split; simpl; try done; by rewrite item_alter.
  - destruct (main st); try done. case_bool_decide; [|done].
    destruct (progress_of st id) as [[|s|[v|r]]|]; try done;
      by inversion Hstep; subst.
  - destruct (main st); try done.
    destruct (forallb _ _); [|done]. by inversion Hstep; subst.
  - destruct (main st); try done. case_bool_decide; [|done].
    destruct (rejection st id); [|done]. by inversion Hstep; subst.
  - destruct (main st); try done.
    destruct (forallb _ _); [|done]. by inversion Hstep; subst.
Qed.

Lemma Tied_run limit arr fn evs : forall st st',
  Tied limit arr fn st -> run evs st = Some st' -> Tied limit arr fn st'.
Proof.
  induction evs as [|ev evs IH]; intros st st' HT Hrun; simpl in Hrun.
  - by inversion Hrun; subst.
  - destruct (step ev st) as [st1|] eqn:Hstep; [|done].
    simpl in Hrun. eapply IH; [|exact Hrun]. by eapply Tied_step.
Qed.




(** *** Every run can be brought to its end *)












(** *** What the mapper guarantees *)

Lemma unsettled_launch st x rest :
  unsettled (launch x rest st) = S (unsettled st).
Proof.
  unfold unsettled; simpl. rewrite List.filter_app, length_app. simpl. lia.
Qed.

(** C1: with a limit of at least 1, no reachable state has more than
    [limit] transformations in flight; and whenever the loop is about to
    launch one (it sits at the head of [for await] and the source has an
    input left), strictly fewer than [limit] are in flight, the launch
    adding exactly one. *)
Theorem never_more_than_limit_in_flight
    (limit : Z) (arr : list T) (fn : T -> Settlement R E)
    (evs : list event) (st : state T R E) :
  1 <= limit ->
  run evs (pooledMap limit arr fn) = Some st ->
  Z.of_nat (unsettled st) <= limit
  /\ (forall x rest,
        main st = ForAwait -> array st = x :: rest ->
        step Pull st = Some (launch x rest st)
        /\ Z.of_nat (unsettled st) < limit
        /\ unsettled (launch x rest st) = S (unsettled st)).
Proof.
  intros Hlimit Hrun.
  pose proof (pool_Inv_run _ _ _ (pool_Inv_init limit arr fn) Hrun) as HI.
  pose proof (Tied_run _ _ _ _ _ _ (Tied_init limit arr fn) Hrun) as HT.
  pose proof (unsettled_le_executing st HI) as Hle.
  pose proof (inv_bound st HI) as Hb. unfold bound in Hb.
  rewrite (tied_limit _ _ _ _ HT) in Hb.
  split; [lia|]. intros x rest Hm Harr.
  split; [simpl; by rewrite Hm, Harr|].
  split; [|apply unsettled_launch].
  pose proof (inv_frame st HI) as Hf. unfold frame_inv, bound in Hf.
  rewrite Hm, (tied_limit _ _ _ _ HT) in Hf. lia.
Qed.




(** *** The limit is not validated *)

Definition relimit (limit : Z) st : state T R E :=
  {| poolLimit := limit; iteratorFn := iteratorFn st; array := array st;
     tasks := tasks st; executing := executing st; written := written st;
     main := main st |}.

Lemma step_relimit limit ev st :
  poolLimit st = Z.max limit 1 ->
  step ev (relimit limit st) = relimit limit <$> step ev st.
Proof.
  intros Hl. destruct ev as [|id|id|id| |id|]; simpl.
  - destruct (main st); try done. destruct (array st) as [|x rest]; [done|].
    simpl. unfold launch, relimit; simpl. do 2 f_equal.
    rewrite Hl, length_app. simpl.
    destruct (Z.geb_spec (Z.of_nat (length (executing st) + 1)) limit),
             (Z.geb_spec (Z.of_nat (length (executing st) + 1))
                         (Z.max limit 1)); try done; lia.
  - by destruct (tasks st !! id) as [[x [|s|s]]|].
  - change (progress_of (relimit limit st) id) with (progress_of st id).
    destruct (progress_of st id) as [[|[v|r]|s]|]; done.
  - destruct (main st); try done. case_bool_decide; [|done].
    change (progress_of (relimit limit st) id) with (progress_of st id).
    by destruct (progress_of st id) as [[|s|[v|r]]|].
  - destruct (main st); try done.
    change (is_fulfilled (relimit limit st)) with (is_fulfilled st).
    by destruct (forallb _ _).
  - destruct (main st); try done. case_bool_decide; [|done].
    change (rejection (relimit limit st) id) with (rejection st id).
    by destruct (rejection st id).
  - destruct (main st); try done.
    change (is_reacted (relimit limit st)) with (is_reacted st).
    by destruct (forallb _ _).
Qed.

Lemma step_poolLimit ev st st' :
  step ev st = Some st' -> poolLimit st' = poolLimit st.
Proof.
  intros Hstep. destruct ev as [|id|id|id| |id|]; simpl in Hstep.
  - destruct (main st); try done.
    destruct (array st); by inversion Hstep; subst.
  - destruct (tasks st !! id) as [[x [|s|s]]|]; try done.
    by inversion Hstep; subst.
  - destruct (progress_of st id) as [[|[v|r]|s]|]; try done;
      by inversion Hstep; subst.
  - destruct (main st); try done. case_bool_decide; [|done].
    destruct (progress_of st id) as [[|s|[v|r]]|]; try done;
      by inversion Hstep; subst.
  - destruct (main st); try done.
    destruct (forallb _ _); [|done]. by inversion Hstep; subst.
  - destruct (main st); try done. case_bool_decide; [|done].
    destruct (rejection st id); [|done]. by inversion Hstep; subst.
  - destruct (main st); try done.
    destruct (forallb _ _); [|done]. by inversion Hstep; subst.
Qed.

Lemma run_relimit limit evs : forall st,
  poolLimit st = Z.max limit 1 ->
  run evs (relimit limit st) = relimit limit <$> run evs st.
Proof.
  induction evs as [|ev evs IH]; intros st Hl; simpl; [done|].
  rewrite step_relimit by done.
  destruct (step ev st) as [st1|] eqn:Hstep; simpl; [|done].
  apply IH. by rewrite (step_poolLimit _ _ _ Hstep).
Qed.

(** C8, as the code has it: the limit is not checked.  Whatever [limit]
    is, the mapper runs exactly as it does with the limit [max limit 1]:
    below 1 it behaves as with 1, waiting for a free slot after every
    launch.  On an empty source, for any limit, it writes nothing but the
    end of the sequence: two steps finish it, and no reachable state has
    written a value or a failure. *)
Theorem limit_is_not_validated_and_empty_source_is_empty
    (limit : Z) (arr : list T) (fn : T -> Settlement R E)
    (evs : list event) :
  run evs (pooledMap limit arr fn)
    = relimit limit <$> run evs (pooledMap (Z.max limit 1) arr fn)
  /\ run [Pull; AllFulfilled] (pooledMap limit [] fn)
     = Some {| poolLimit := limit; iteratorFn := fn; array := [];
               tasks := []; executing := []; written := [Close];
               main := Finished |}
  /\ (forall st, run evs (pooledMap limit [] fn) = Some st ->
        tasks st = []
        /\ (written st = [] \/ written st = [Close])).
Proof.
  split; [|split; [done|]].
  - change (pooledMap limit arr fn)
      with (relimit limit (pooledMap (Z.max limit 1) arr fn)).
    by apply run_relimit.
  - intros st Hrun.
    pose proof (pool_Inv_run _ _ _ (pool_Inv_init limit [] fn) Hrun) as HI.
    pose proof (Tied_run _ _ _ _ _ _ (Tied_init limit [] fn) Hrun) as HT.
    pose proof (tied_source _ _ _ _ HT) as Hsrc.
    apply app_eq_nil in Hsrc as [Hitems _].
    apply fmap_nil_inv in Hitems.
    split; [exact Hitems|].
    destruct (inv_written st HI) as (vs & Hvs & Hw).
    unfold fulfilled_values in Hvs. rewrite Hitems in Hvs. simpl in Hvs.
    apply Permutation_nil_r in Hvs. subst vs. rewrite Hw. simpl.
    unfold terminal, failures. rewrite Hitems. simpl.
    destruct (main st); auto.
Qed.

End WithTypes.

(** *** Concrete runs *)

(** A transformation that raises on the input 1 and multiplies every other
    input by ten. *)
Definition fails_on_one (x : nat) : Settlement nat nat :=
  if Nat.eqb x 1 then Rejected x else Fulfilled (10 * x)%nat.

Lemma never_more_than_limit_in_flight_witness :
  Z.of_nat (unsettled (launch 1%nat [2; 3]%nat
                         (pooledMap 2 [1; 2; 3]%nat fails_on_one))) <= 2.
Proof.
  refine (proj1 (never_more_than_limit_in_flight
                   2 [1; 2; 3]%nat fails_on_one [Pull] _ _ _)).
  - lia.
  - reflexivity.
Defined.





(** With the limits 0 and -3 nothing is refused: the input is pulled, its
    transformation launched, the result written and the sequence ended. *)
Lemma limit_below_one_is_accepted :
  (written <$> run [Pull; Settle 0%nat; React 0%nat; RaceSettled 0%nat;
                    Pull; AllFulfilled]
                   (pooledMap 0 [7%nat] fails_on_one))
    = Some [Chunk 70%nat; Close]
  /\ (written <$> run [Pull; Settle 0%nat; React 0%nat; RaceSettled 0%nat;
                       Pull; AllFulfilled]
                      (pooledMap (-3) [7%nat] fails_on_one))
     = Some [Chunk 70%nat; Close].
Proof. repeat split. Qed.

End PoolSpec.

(* ===================================================================== *)
(** * Further properties *)
(* ===================================================================== *)

(** ** Server: resources, shutdown, dispatch, the exported functions *)

Module ServerExtra.
Import Server.
Import ServerSpec.
Local Open Scope js_scope.

(** *** Relations every method body respects *)

Section Respects.
Context (Rel : world -> world -> Prop).
Context (Rel_refl : forall w, Rel w w).
Context (Rel_trans : forall w1 w2 w3, Rel w1 w2 -> Rel w2 w3 -> Rel w1 w3).
Context (Rel_log : forall w e,
           Rel w (mkWorld (self w) (closedRids w) (log w ++ [e]))).

Definition respects {A} (m : M A) : Prop := forall w, Rel w (m w).2.

Lemma respects_ret {A} (a : A) : respects (ret a).
Proof. intros w. apply Rel_refl. Qed.

Lemma respects_throw {A} e : respects (@throw A e).
Proof. intros w. apply Rel_refl. Qed.

Lemma respects_park {A} : respects (@park A).
Proof. intros w. apply Rel_refl. Qed.

Lemma respects_get : respects get.
Proof. intros w. apply Rel_refl. Qed.

Lemma respects_emit e : respects (emit e).
Proof. intros w. apply Rel_log. Qed.

Lemma respects_await {A} (o : Outcome A) : respects (await o).
Proof. destruct o; intros w; apply Rel_refl. Qed.

Lemma respects_bind {A B} (m : M A) (k : A -> M B) :
  respects m -> (forall a, respects (k a)) -> respects (bind m k).
Proof.
  intros Hm Hk w. unfold bind. specialize (Hm w).
  destruct (m w) as [[a|e|] w']; simpl in *; try done.
  eapply Rel_trans; [exact Hm|apply Hk].
Qed.

Lemma respects_try_catch {A} (m : M A) h :
  respects m -> (forall e, respects (h e)) -> respects (try_catch m h).
Proof.
  intros Hm Hh w. unfold try_catch. specialize (Hm w).
  destruct (m w) as [[a|e|] w']; simpl in *; try done.
  eapply Rel_trans; [exact Hm|apply Hh].
Qed.

Lemma respects_try_finally {A} (m : M A) fin :
  respects m -> respects fin -> respects (try_finally m fin).
Proof.
  intros Hm Hf w. unfold try_finally. specialize (Hm w).
  destruct (m w) as [[a|e|] w']; simpl in *; try done;
    specialize (Hf w'); destruct (fin w') as [[[]|e'|] w'']; simpl in *;
    by eapply Rel_trans.
Qed.

Lemma respects_detached (m : M unit) : respects m -> respects (detached m).
Proof.
  intros Hm w. unfold detached. specialize (Hm w).
  destruct (m w) as [[a|e|] w']; simpl in *; try done.
  eapply Rel_trans; [exact Hm|apply Rel_log].
Qed.

Lemma respects_for_each {A} (xs : list A) body :
  (forall x, respects (body x)) -> respects (for_each xs body).
Proof.
  intros Hb. induction xs as [|x xs IH]; simpl.
  - apply respects_ret.
  - apply respects_bind; auto.
Qed.

Lemma respects_if {A} (b : bool) (m1 m2 : M A) :
  respects m1 -> respects m2 -> respects (if b then m1 else m2).
Proof. by destruct b. Qed.

(** The bodies built from calls that respect the relation. *)
Context (Rel_untrack : forall c, respects (untrackHttpConnection c)).
Context (Rel_close : forall r e, respects (close_resource r e)).

Lemma respects_closeHttpConn c : respects (closeHttpConn c).
Proof.
  unfold closeHttpConn.
  apply respects_bind; [apply Rel_untrack|]. intros _.
  apply respects_try_catch; [apply Rel_close|]. intros _. apply respects_ret.
Qed.

Lemma respects_close_listener l : respects (close_listener l).
Proof.
  unfold close_listener.
  apply respects_try_catch; [apply Rel_close|]. intros _. apply respects_ret.
Qed.

Lemma respects_respond ev c info : respects (respond ev c info).
Proof.
  unfold respond.
  apply respects_bind; [apply respects_get|]. intros s.
  apply respects_bind.
  - apply respects_try_catch; [apply respects_await|].
    intros e. apply respects_await.
  - intros r. apply respects_try_catch.
    + apply respects_bind; [apply respects_await|]. intros _.
      apply respects_emit.
    + intros _. apply respects_closeHttpConn.
Qed.

Lemma respects_serveHttp_parked c info script :
  respects (serveHttp_parked c info script).
Proof.
  induction script as [|[[ev|]|e|] rest IH]; simpl.
  - apply respects_park.
  - apply respects_bind; [apply respects_detached, respects_respond|].
    intros _. apply respects_bind; [apply respects_get|]. intros s.
    apply respects_if; [apply respects_closeHttpConn|exact IH].
  - apply respects_closeHttpConn.
  - apply respects_closeHttpConn.
  - apply respects_park.
Qed.

Lemma respects_serveHttp c info script : respects (serveHttp c info script).
Proof.
  unfold serveHttp. apply respects_bind; [apply respects_get|]. intros s.
  apply respects_if;
    [apply respects_closeHttpConn|apply respects_serveHttp_parked].
Qed.

Context (Rel_track : forall c, respects (trackHttpConnection c)).

Lemma respects_accept_at script : forall frame d,
  respects (accept_at frame script d).
Proof.
  induction script as [|[conn [c|]|e|] rest IH]; intros [] d; simpl;
    try apply respects_park.
  - apply respects_bind.
    + apply respects_bind; [apply Rel_track|]. intros _.
      apply respects_bind; [apply respects_emit|]. intros _.
      apply respects_detached, respects_serveHttp.
    + intros _. apply respects_bind; [apply respects_get|]. intros s.
      apply respects_if; [apply respects_ret|apply IH].
  - apply respects_bind; [apply respects_ret|]. intros _.
    apply respects_bind; [apply respects_get|]. intros s.
    apply respects_if; [apply respects_ret|apply IH].
  - apply respects_if; [|apply respects_throw].
    apply respects_bind; [apply respects_emit|]. intros _. apply IH.
  - apply respects_bind; [apply respects_get|]. intros s.
    apply respects_if; [apply respects_ret|apply IH].
Qed.


End Respects.

(** *** Closed resources stay closed *)









(** *** [close()] releases everything *)

Lemma for_each_close_listener xs : forall w,
  exists w',
    for_each xs close_listener w = (Normal tt, w')
    /\ self w' = self w
    /\ closedRids w ⊆ closedRids w'
    /\ (forall l, l ∈ xs -> rid l ∈ closedRids w').
Proof.
  induction xs as [|x xs IH]; intros w; simpl.
  - exists w. repeat split; try done. intros l Hl. by apply elem_of_nil in Hl.
  - unfold bind at 1, close_listener, try_catch, close_resource.
    case_bool_decide as Hin; simpl.
    + destruct (IH w) as (w' & Hrun & Hself & Hsub & Hall).
      exists w'. split; [done|]. split; [done|]. split; [done|].
      intros l [->|Hl]%elem_of_cons; [by apply Hsub|by apply Hall].
    + destruct (IH (mkWorld (self w) (rid x :: closedRids w)
                      (log w ++ [ListenerClose (rid x)])))
        as (w' & Hrun & Hself & Hsub & Hall). simpl in *.
      exists w'. split; [done|]. split; [done|].
      split; [intros y Hy; apply Hsub; by right|].
      intros l [->|Hl]%elem_of_cons; [apply Hsub; by left|by apply Hall].
Qed.

Lemma for_each_closeHttpConn xs : forall w,
  exists w',
    for_each xs closeHttpConn w = (Normal tt, w')
    /\ s_closed (self w') = s_closed (self w)
    /\ s_listeners (self w') = s_listeners (self w)
    /\ closedRids w ⊆ closedRids w'
    /\ (forall c, c ∈ xs -> c ∈ closedRids w').
Proof.
  induction xs as [|x xs IH]; intros w; simpl.
  - exists w. repeat split; try done. intros l Hl. by apply elem_of_nil in Hl.
  - unfold bind at 1, closeHttpConn, bind, untrackHttpConnection, modify,
      try_catch, close_resource. simpl.
    case_bool_decide as Hin; simpl.
    + destruct (IH (mkWorld (with_httpConnections (Set_delete Nat.eqb x)
                               (self w)) (closedRids w) (log w)))
        as (w' & Hrun & Hc & Hl & Hsub & Hall). simpl in *.
      exists w'. repeat split; try done.
      intros c [->|Hc']%elem_of_cons; [by apply Hsub|by apply Hall].
    + destruct (IH (mkWorld (with_httpConnections (Set_delete Nat.eqb x)
                               (self w)) (x :: closedRids w)
                      (log w ++ [HttpConnClose x])))
        as (w' & Hrun & Hc & Hl & Hsub & Hall). simpl in *.
      exists w'. repeat split; try done.
      * intros y Hy. apply Hsub. by right.
      * intros c [->|Hc']%elem_of_cons; [apply Hsub; by left|by apply Hall].
Qed.

Lemma close_outcome (w : world) :
  closed w = false ->
  exists w',
    close w = (Normal tt, w')
    /\ closed w' = true
    /\ s_listeners (self w') = []
    /\ s_httpConnections (self w') = []
    /\ (forall l, l ∈ s_listeners (self w) -> rid l ∈ closedRids w')
    /\ (forall c, c ∈ s_httpConnections (self w) -> c ∈ closedRids w')
    /\ closedRids w ⊆ closedRids w'.
Proof.
  unfold closed. intros Hc.
  unfold close. unfold bind at 1. unfold get. simpl. rewrite Hc.
  unfold bind at 1. simpl.
  set (w1 := mkWorld (set_closed true (self w)) (closedRids w) (log w)).
  destruct (for_each_close_listener (s_listeners (self w)) w1)
    as (w2 & Hrun2 & Hself2 & Hsub2 & Hall2).
  unfold bind at 1. rewrite Hrun2. unfold bind at 1. simpl.
  set (w3 := mkWorld (with_listeners (fun _ => []) (self w2))
                     (closedRids w2) (log w2)).
  destruct (for_each_closeHttpConn (s_httpConnections (self w)) w3)
    as (w4 & Hrun4 & Hc4 & Hl4 & Hsub4 & Hall4).
  unfold bind. rewrite Hrun4. simpl.
  eexists. split; [done|]. simpl.
  split; [rewrite Hc4; simpl; by rewrite Hself2|].
  split; [by rewrite Hl4|]. split; [done|].
  split; [intros l Hl; by apply Hsub4, Hall2|].
  split; [done|]. simpl in Hsub2, Hsub4. by etrans.
Qed.

(** X2: [close()] on a server that is not closed completes, marks the
    server closed, empties both tracked sets, and leaves the resource of
    every listener and of every connection that was tracked closed; what
    was closed before stays closed. *)
Theorem close_releases_every_tracked_resource (w : world) :
  closed w = false ->
  exists w',
    close w = (Normal tt, w')
    /\ closed w' = true
    /\ s_listeners (self w') = []
    /\ s_httpConnections (self w') = []
    /\ (forall l, l ∈ s_listeners (self w) -> rid l ∈ closedRids w')
    /\ (forall c, c ∈ s_httpConnections (self w) -> c ∈ closedRids w')
    /\ closedRids w ⊆ closedRids w'.
Proof. exact (close_outcome w). Qed.

(** *** After [close()]: connections *)

(** Nothing but [#trackHttpConnection] adds a connection. *)
Definition winds_down (w w' : world) : Prop :=
  s_closed (self w') = s_closed (self w)
  /\ s_httpConnections (self w') ⊆ s_httpConnections (self w).

Lemma Set_delete_subseteq (c : HttpConn) (cs : list HttpConn) :
  Set_delete Nat.eqb c cs ⊆ cs.
Proof.
  unfold Set_delete. intros x Hx.
  apply list_elem_of_In, filter_In in Hx. apply list_elem_of_In. tauto.
Qed.

Lemma Set_delete_not_in (c : HttpConn) (cs : list HttpConn) :
  c ∉ Set_delete Nat.eqb c cs.
Proof.
  unfold Set_delete. intros Hx.
  apply list_elem_of_In, filter_In in Hx. destruct Hx as [_ Hx].
  by rewrite Nat.eqb_refl in Hx.
Qed.

Lemma winds_down_serveHttp_parked c info script w :
  winds_down w (serveHttp_parked c info script w).2.
Proof.
  apply (respects_serveHttp_parked winds_down); unfold winds_down.
  - done.
  - intros w1 w2 w3 [H1 H2] [H3 H4]. split; [congruence|by etrans].
  - done.
  - intros c' w'. simpl. split; [done|apply Set_delete_subseteq].
  - intros r e w'. unfold close_resource. by case_bool_decide.
Qed.

Lemma winds_down_serveHttp c info script w :
  winds_down w (serveHttp c info script w).2.
Proof.
  apply (respects_serveHttp winds_down); unfold winds_down.
  - done.
  - intros w1 w2 w3 [H1 H2] [H3 H4]. split; [congruence|by etrans].
  - done.
  - intros c' w'. simpl. split; [done|apply Set_delete_subseteq].
  - intros r e w'. unfold close_resource. by case_bool_decide.
Qed.

(** A connection that is accepted while the server is closed. *)
Lemma accept_connection_closed conn c rest d w :
  s_closed (self w) = true ->
  exists w',
    accept_at AtAccept (Accepts conn (Some c) :: rest) d w = (Normal tt, w')
    /\ self w'
       = with_httpConnections (Set_delete Nat.eqb c)
           (with_httpConnections (Set_add Nat.eqb c) (self w))
    /\ c ∈ closedRids w'
    /\ closedRids w ⊆ closedRids w'.
Proof.
  intros Hc. cbn [accept_at].
  unfold bind, trackHttpConnection, modify, emit, detached, serveHttp,
    get, closeHttpConn, bind, untrackHttpConnection, modify, try_catch,
    close_resource. cbn. rewrite Hc. cbn.
  case_bool_decide as Hin; cbn; rewrite Hc; cbn;
    (eexists; split; [done|]); cbn.
  - done.
  - split; [done|]. split; [by left|]. intros x Hx. by right.
Qed.

(** On a closed server an accept loop reads at most what it was waiting
    for, and leaves no connection behind. *)
Lemma accept_at_closed frame script d w :
  closed w = true -> s_httpConnections (self w) = [] ->
  closed (accept_at frame script d w).2 = true
  /\ s_httpConnections (self (accept_at frame script d w).2) = [].
Proof.
  unfold closed. intros Hc Hn.
  destruct script as [|[conn [c|]|e|] rest], frame; try done.
  - destruct (accept_connection_closed conn c rest d w Hc)
      as (w' & -> & Hself & _). simpl. rewrite Hself. simpl.
    rewrite Hc, Hn. unfold Set_add, Set_delete. simpl.
    by rewrite Nat.eqb_refl.
  - simpl. unfold bind, get. simpl. by rewrite Hc.
  - simpl. destruct (is_transient e); [|done].
    unfold bind at 1, emit. simpl.
    destruct rest as [|[conn' up'|e'|] rest']; simpl; try done.
    unfold bind, get. simpl. by rewrite Hc.
  - simpl. unfold bind, get. simpl. by rewrite Hc.
Qed.

Definition quiet (w : world) : Prop :=
  closed w = true /\ s_listeners (self w) = []
  /\ s_httpConnections (self w) = [].

Lemma perform_quiet a w : quiet w -> quiet (perform a w).2.
Proof.
  intros (Hc & Hl & Hn).
  destruct (perform_shut a w (conj Hc Hl)) as [Hc' Hl'].
  split; [done|]. split; [done|].
  destruct (guarded_calls_throw w Hc) as (Hs & Hls & Htls & Hcl).
  destruct a; simpl.
  - by rewrite Hs.
  - by rewrite Hls.
  - by rewrite Htls.
  - by rewrite Hcl.
  - destruct (accept_at_closed frame script acceptBackoffDelay w Hc Hn)
      as [_ Hn1].
    unfold try_finally.
    destruct (accept_at frame script acceptBackoffDelay w) as [c w1];
      simpl in Hn1.
    assert (Hcu : s_httpConnections (self (serve_cleanup listener w1).2)
                  = []).
    { unfold serve_cleanup, bind, untrackListener, modify, close_listener,
        try_catch, close_resource. simpl.
      case_bool_decide; simpl; done. }
    destruct c as [[]|e|]; simpl; try done;
      destruct (serve_cleanup listener w1) as [[[]|e'|] w2]; simpl in *;
      done.
  - destruct (winds_down_serveHttp_parked httpConn connInfo script w)
      as [_ Hsub].
    rewrite Hn in Hsub.
    destruct (s_httpConnections
                (self (serveHttp_parked httpConn connInfo script w).2))
      as [|x xs]; [done|].
    specialize (Hsub x ltac:(by left)). by apply elem_of_nil in Hsub.
Qed.

Lemma run_quiet acts : forall w, quiet w -> quiet (run acts w).
Proof.
  induction acts as [|a acts IH]; intros w Hw; simpl; [done|].
  apply IH, perform_quiet, Hw.
Qed.

Lemma run_closed_quiet acts : forall w,
  (closed w = true -> quiet w) ->
  closed (run acts w) = true -> quiet (run acts w).
Proof.
  induction acts as [|a acts IH]; intros w Hw; simpl; [done|].
  apply IH. intros Hc'.
  destruct (closed w) eqn:Hc.
  - apply perform_quiet; auto.
  - destruct a; try (rewrite perform_closed in Hc' by done; congruence).
    simpl. destruct (close_outcome w Hc) as (w' & -> & H1 & H2 & H3 & _).
    by repeat split.
Qed.

(** X3: take any server and any history in which [close()] has been
    called, whatever happens afterwards (calls, continuations of parked
    accept loops and connection loops, connections that are accepted after
    the close): the server tracks no connection and no listener. *)
Theorem after_close_nothing_is_tracked
    (serverInit : ServerInit) (before after : list activity) :
  let w := run (before ++ CallClose :: after) (new_Server serverInit) in
  s_httpConnections (self w) = []
  /\ s_listeners (self w) = []
  /\ closed w = true.
Proof.
  intros w.
  assert (Hq : quiet w).
  { subst w. rewrite server_run_app. simpl. apply run_quiet.
    set (w0 := run before (new_Server serverInit)).
    destruct (closed w0) eqn:Hc.
    - apply perform_quiet with (a := CallClose).
      apply (run_closed_quiet before (new_Server serverInit)); [done|exact Hc].
    - simpl. destruct (close_outcome w0 Hc) as (w' & -> & H1 & H2 & H3 & _).
      by repeat split. }
  destruct Hq as (Hc & Hl & Hn). done.
Qed.

(** X4: once the server is closed, an accept loop that is still parked
    ends as soon as what it waits for settles, without reading anything
    further from its listener ([rest] is ignored): at the backoff timer it
    returns at once; after a transient error it sleeps the one backoff and
    returns; after an accepted connection it returns, and that connection,
    when it could be upgraded, has been closed and is not tracked. *)
Theorem closed_server_stops_accepting
    (w : world) (d : option Z) (rest : list accept_event)
    (conn : Conn) (c : HttpConn) (e : error) :
  closed w = true ->
  is_transient e = true ->
  accept_at AtDelay (Elapsed :: rest) d w = (Normal tt, w)
  /\ accept_at AtAccept (Rejects e :: Elapsed :: rest) d w
     = (Normal tt, add_log w [Delay (next_backoff d)])
  /\ accept_at AtAccept (Accepts conn None :: rest) d w = (Normal tt, w)
  /\ (exists w',
        accept_at AtAccept (Accepts conn (Some c) :: rest) d w
        = (Normal tt, w')
        /\ c ∈ closedRids w'
        /\ (c ∉ s_httpConnections (self w'))
        /\ s_httpConnections (self w') ⊆ s_httpConnections (self w)).
Proof.
  unfold closed. intros Hc He.
  split; [simpl; unfold bind, get; simpl; by rewrite Hc|].
  split; [simpl; rewrite He; unfold bind, get, emit; simpl; by rewrite Hc|].
  split; [simpl; unfold bind, get; simpl; by rewrite Hc|].
  assert (Hdel : forall cs, Set_delete Nat.eqb c (Set_add Nat.eqb c cs)
                            ⊆ cs).
  { intros cs x Hx. unfold Set_add in Hx.
    destruct (existsb (Nat.eqb c) cs).
    - by apply Set_delete_subseteq in Hx.
    - unfold Set_delete in Hx. rewrite List.filter_app in Hx. simpl in Hx.
      rewrite Nat.eqb_refl in Hx. simpl in Hx. rewrite app_nil_r in Hx.
      by apply (Set_delete_subseteq c). }
  destruct (accept_connection_closed conn c rest d w Hc)
    as (w' & Hrun & Hself & Hrid & _).
  exists w'. split; [done|]. split; [done|]. rewrite Hself. simpl.
  split; [apply Set_delete_not_in|apply Hdel].
Qed.

(** *** Relations every activity respects *)

Section RespectsAll.
Context (Rel : world -> world -> Prop).
Context (Rel_refl : forall w, Rel w w).
Context (Rel_trans : forall w1 w2 w3, Rel w1 w2 -> Rel w2 w3 -> Rel w1 w3).
Context (Rel_log : forall w e,
           Rel w (mkWorld (self w) (closedRids w) (log w ++ [e]))).
Context (Rel_listeners : forall g, respects Rel (modify (with_listeners g))).
Context (Rel_conns : forall g, respects Rel (modify (with_httpConnections g))).
Context (Rel_closed : forall b, respects Rel (modify (set_closed b))).
Context (Rel_close : forall r e, respects Rel (close_resource r e)).

Let bind_ok {A B} := @respects_bind Rel Rel_trans A B.
Let ret_ok {A} := @respects_ret Rel Rel_refl A.

Lemma respects_accept_at_all frame script d :
  respects Rel (accept_at frame script d).
Proof.
  apply respects_accept_at; try done.
  - intros c. apply Rel_conns.
  - intros c. apply Rel_conns.
Qed.

Lemma respects_serve_cleanup l : respects Rel (serve_cleanup l).
Proof.
  unfold serve_cleanup. apply bind_ok; [apply Rel_listeners|]. intros _.
  by apply respects_close_listener.
Qed.

Lemma respects_serve l script : respects Rel (serve l script).
Proof.
  unfold serve. apply bind_ok; [by apply respects_get|]. intros s.
  apply respects_if; [by apply respects_throw|].
  apply bind_ok; [apply Rel_listeners|]. intros _.
  apply respects_try_finally; try done; [|apply respects_serve_cleanup].
  unfold accept. apply bind_ok; [by apply respects_get|]. intros s'.
  apply respects_if; [apply ret_ok|apply respects_accept_at_all].
Qed.

Lemma respects_listenAndServe listen script :
  respects Rel (listenAndServe listen script).
Proof.
  unfold listenAndServe. apply bind_ok; [by apply respects_get|]. intros s.
  apply respects_if; [by apply respects_throw|].
  apply bind_ok; [by apply respects_emit|]. intros _.
  apply bind_ok; [by apply respects_await|]. intros l.
  apply respects_serve.
Qed.

Lemma respects_listenAndServeTls c k listen script :
  respects Rel (listenAndServeTls c k listen script).
Proof.
  unfold listenAndServeTls.
  apply bind_ok; [by apply respects_get|]. intros s.
  apply respects_if; [by apply respects_throw|].
  apply bind_ok; [by apply respects_emit|]. intros _.
  apply bind_ok; [by apply respects_await|]. intros l.
  apply respects_serve.
Qed.

Lemma respects_close : respects Rel close.
Proof.
  unfold close. apply bind_ok; [by apply respects_get|]. intros s.
  apply respects_if; [by apply respects_throw|].
  apply bind_ok; [apply Rel_closed|]. intros _.
  apply bind_ok.
  { apply respects_for_each; try done. intros l.
    by apply respects_close_listener. }
  intros _. apply bind_ok; [apply Rel_listeners|]. intros _.
  apply bind_ok; [|intros _; apply Rel_conns].
  apply respects_for_each; try done. intros c.
  apply respects_closeHttpConn; try done. intros c'. apply Rel_conns.
Qed.

Lemma respects_perform a : respects Rel (perform a).
Proof.
  destruct a; simpl.
  - apply respects_serve.
  - apply respects_listenAndServe.
  - apply respects_listenAndServeTls.
  - apply respects_close.
  - apply respects_try_finally; try done;
      [apply respects_accept_at_all|apply respects_serve_cleanup].
  - apply respects_serveHttp_parked; try done. intros c. apply Rel_conns.
Qed.

Lemma respects_run acts : forall w, Rel w (run acts w).
Proof.
  induction acts as [|a acts IH]; intros w; simpl; [apply Rel_refl|].
  eapply Rel_trans; [apply respects_perform|apply IH].
Qed.

End RespectsAll.

(** *** The configuration is never touched *)

Definition config_kept (w w' : world) : Prop :=
  s_port (self w') = s_port (self w)
  /\ s_host (self w') = s_host (self w)
  /\ s_handler (self w') = s_handler (self w)
  /\ s_onError (self w') = s_onError (self w).

Lemma config_kept_run acts w : config_kept w (run acts w).
Proof.
  apply (respects_run config_kept); unfold config_kept; try done.
  - intros w1 w2 w3 (?&?&?&?) (?&?&?&?). repeat split; congruence.
  - intros r e w'. unfold close_resource. by case_bool_decide.
Qed.

(** X5: whatever is done with a server (calls of its methods, its loops
    running on, [close()]), its port, host, request handler and error
    handler stay the ones it was constructed with; a constructor call
    without [onError] installs the handler that answers
    "Internal Server Error" with status 500. *)
Theorem configuration_is_never_changed
    (serverInit : ServerInit) (acts : list activity) :
  let w := run acts (new_Server serverInit) in
  s_port (self w) = i_port serverInit
  /\ s_host (self w) = i_hostname serverInit
  /\ s_handler (self w) = i_handler serverInit
  /\ s_onError (self w) = default default_onError (i_onError serverInit)
  /\ (forall e, default_onError e
                = Returns (mkResponse "Internal Server Error" 500)).
Proof.
  intros w. destruct (config_kept_run acts (new_Server serverInit))
    as (H1 & H2 & H3 & H4).
  subst w. rewrite H1, H2, H3, H4. done.
Qed.

(** *** Answering a request *)

(** X6: when the request handler raises, the response of [onError] is the
    one handed to [respondWith]; nothing else is logged and the
    connection stays as it was. *)
Theorem respond_falls_back_to_onError
    (ev : RequestEvent) (c : HttpConn) (info : ConnInfo) (w : world)
    (e : error) (r : Response)
    (Hhandler : s_handler (self w) (request ev) info = Raises e)
    (HonError : s_onError (self w) e = Returns r)
    (Hsend : respondWith ev r = Returns tt) :
  respond ev c info w = (Normal tt, add_log w [RespondWith c r]).
Proof.
  unfold respond, bind, get, try_catch. simpl.
  rewrite Hhandler. simpl. rewrite HonError. simpl.
  rewrite Hsend. simpl. done.
Qed.

Lemma respond_ok ev c info w r :
  s_handler (self w) (request ev) info = Returns r ->
  respondWith ev r = Returns tt ->
  respond ev c info w = (Normal tt, add_log w [RespondWith c r]).
Proof.
  intros Hh Hs. unfold respond, bind, get, try_catch. simpl.
  rewrite Hh. simpl. rewrite Hs. simpl. done.
Qed.

(** X7: when [respondWith] throws (the client has gone, the body cannot be
    read), the error is swallowed: the dispatch ends normally, the
    connection is closed and no longer tracked, and no response is
    logged as sent. *)
Theorem respond_closes_the_connection_when_sending_fails
    (ev : RequestEvent) (c : HttpConn) (info : ConnInfo) (w : world)
    (r : Response) (e : error)
    (Hhandler : s_handler (self w) (request ev) info = Returns r)
    (Hsend : respondWith ev r = Raises e) :
  exists w',
    respond ev c info w = (Normal tt, w')
    /\ self w' = with_httpConnections (Set_delete Nat.eqb c) (self w)
    /\ (c ∉ s_httpConnections (self w'))
    /\ c ∈ closedRids w'
    /\ (log w' = log w \/ log w' = log w ++ [HttpConnClose c]).
Proof.
  unfold respond, bind, get, try_catch. simpl.
  rewrite Hhandler. simpl. rewrite Hsend. simpl.
  unfold closeHttpConn, bind, untrackHttpConnection, modify, try_catch,
    close_resource. simpl.
  case_bool_decide as Hin; simpl.
  - eexists. split; [done|]. simpl. repeat split; auto.
    apply Set_delete_not_in.
  - eexists. split; [done|]. simpl. repeat split; auto.
    + apply Set_delete_not_in.
    + left.
Qed.

(** *** A connection's requests *)

(** The results of [nextRequest()] while request events arrive. *)
Definition arriving (evs : list RequestEvent)
  : list (Outcome (option RequestEvent)) :=
  (fun ev => Returns (Some ev)) <$> evs.

(** The last result of [nextRequest()]: [null], or an error. *)
Definition ends_connection (o : Outcome (option RequestEvent)) : bool :=
  match o with
  | Returns None | Raises _ => true
  | _ => false
  end.

Lemma serveHttp_parked_answers c info f tail :
  forall evs w,
    closed w = false ->
    Forall (fun ev =>
              s_handler (self w) (request ev) info = Returns (f ev)
              /\ respondWith ev (f ev) = Returns tt) evs ->
    serveHttp_parked c info (arriving evs ++ tail) w
    = serveHttp_parked c info tail
        (add_log w ((fun ev => RespondWith c (f ev)) <$> evs)).
Proof.
  induction evs as [|ev evs IH]; intros w Hcl Hall.
  - simpl. destruct w. unfold add_log. simpl. by rewrite app_nil_r.
  - apply Forall_cons in Hall as [[Hh Hs] Hall].
    change (arriving (ev :: evs) ++ tail)
      with (Returns (Some ev) :: (arriving evs ++ tail)).
    cbn [serveHttp_parked]. unfold bind at 1, detached.
    rewrite (respond_ok ev c info w (f ev) Hh Hs).
    unfold bind at 1, get. cbn [self add_log].
    unfold closed in Hcl. rewrite Hcl.
    rewrite IH; [|done|done].
    unfold add_log. cbn [self closedRids log fmap list_fmap].
    by rewrite <- app_assoc.
Qed.


(** *** The log only grows *)

Definition log_grows (w w' : world) : Prop :=
  exists l, log w' = log w ++ l.

Lemma log_grows_refl w : log_grows w w.
Proof. exists []. by rewrite app_nil_r. Qed.

Lemma log_grows_trans w1 w2 w3 :
  log_grows w1 w2 -> log_grows w2 w3 -> log_grows w1 w3.
Proof.
  intros [l1 H1] [l2 H2]. exists (l1 ++ l2).
  by rewrite H2, H1, app_assoc.
Qed.

Lemma log_grows_close_resource r e : respects log_grows (close_resource r e).
Proof.
  intros w. unfold close_resource. case_bool_decide; simpl.
  - apply log_grows_refl.
  - by exists [e].
Qed.

Lemma log_grows_modify g : respects log_grows (modify g).
Proof. intros w. exists []. simpl. by rewrite app_nil_r. Qed.

Lemma log_grows_serve l script : respects log_grows (serve l script).
Proof.
  apply respects_serve.
  - apply log_grows_refl.
  - apply log_grows_trans.
  - intros w e. by exists [e].
  - intros g. apply log_grows_modify.
  - intros g. apply log_grows_modify.
  - apply log_grows_close_resource.
Qed.

(** The first call a world's log records. *)
Definition first_call (w : world) : option effect := head (log w).

Lemma listenAndServe_first_call listen script w :
  closed w = false -> log w = [] ->
  first_call (listenAndServe listen script w).2
  = Some (Listen (default HTTP_PORT (s_port (self w)))
                 (default "0.0.0.0"%string (s_host (self w)))).
Proof.
  intros Hcl Hlog. unfold listenAndServe, bind at 1, get.
  unfold closed in Hcl. rewrite Hcl.
  unfold bind at 1, emit. rewrite Hlog. simpl.
  set (w1 := mkWorld _ _ _).
  assert (Hg : log_grows w1 ((l <- await listen ;; serve l script) w1).2).
  { apply respects_bind; [apply log_grows_trans| |].
    - apply respects_await. apply log_grows_refl.
    - intros l. apply log_grows_serve. }
  destruct Hg as [l Hl]. unfold first_call. rewrite Hl. done.
Qed.

Lemma listenAndServeTls_first_call certFile keyFile listen script w :
  closed w = false -> log w = [] ->
  first_call (listenAndServeTls certFile keyFile listen script w).2
  = Some (ListenTls (default HTTPS_PORT (s_port (self w)))
                    (default "0.0.0.0"%string (s_host (self w)))
                    certFile keyFile).
Proof.
  intros Hcl Hlog. unfold listenAndServeTls, bind at 1, get.
  unfold closed in Hcl. rewrite Hcl.
  unfold bind at 1, emit. rewrite Hlog. simpl.
  set (w1 := mkWorld _ _ _).
  assert (Hg : log_grows w1 ((l <- await listen ;; serve l script) w1).2).
  { apply respects_bind; [apply log_grows_trans| |].
    - apply respects_await. apply log_grows_refl.
    - intros l. apply log_grows_serve. }
  destruct Hg as [l Hl]. unfold first_call. rewrite Hl. done.
Qed.

(** *** The exported functions *)

(** X9: [serve] listens on the given port and host, on port 8000 when no
    port is given and on "0.0.0.0" when no host is given; the deprecated
    [listenAndServe] falls back to port 80 instead.  In both, listening
    is the first thing that happens, whatever the accept loop then
    sees. *)
Theorem serve_listens_first_with_its_defaults
    (handler : Request -> ConnInfo -> Outcome Response)
    (options : ServerApi.ServeInit) (config : ServerApi.ListenOptions)
    (legacy_options : option ServerApi.ServeInit)
    (listen : Outcome Listener) (script : list accept_event) :
  first_call (ServerApi.serve handler options listen script).2
  = Some (Listen (default 8000 (ServerApi.o_port options))
                 (default "0.0.0.0"%string (ServerApi.o_hostname options)))
  /\ first_call
       (ServerApi.listenAndServe config handler legacy_options
          listen script).2
     = Some (Listen (default 80 (ServerApi.c_port config))
                    (default "0.0.0.0"%string
                             (ServerApi.c_hostname config))).
Proof.
  split.
  - unfold ServerApi.serve. by rewrite listenAndServe_first_call.
  - unfold ServerApi.listenAndServe. by rewrite listenAndServe_first_call.
Qed.

(** X10: [serveTls] checks [keyFile] first and [certFile] second, and
    throws before a server exists when one is missing or empty; with
    both given, its first call is [Deno.listenTls] with these files, on
    port 8443 unless a port is given.  The deprecated
    [listenAndServeTls] makes no such check: it goes to
    [Deno.listenTls] with whatever file names it got, on port 443
    unless a port is given. *)
Theorem serveTls_checks_its_files_before_listening
    (handler : Request -> ConnInfo -> Outcome Response)
    (options : ServerApi.ServeTlsInit) (config : ServerApi.ListenOptions)
    (certFile keyFile : string)
    (legacy_options : option ServerApi.ServeInit)
    (listen : Outcome Listener) (script : list accept_event) :
  let result := ServerApi.serveTls handler options listen script in
  (ServerApi.is_falsy (ServerApi.t_keyFile options) = true ->
   result
   = (Thrown (OtherError "TLS config is given, but 'keyFile' is missing."),
      None))
  /\ (ServerApi.is_falsy (ServerApi.t_keyFile options) = false ->
      ServerApi.is_falsy (ServerApi.t_certFile options) = true ->
      result
      = (Thrown
           (OtherError "TLS config is given, but 'certFile' is missing."),
         None))
  /\ (ServerApi.is_falsy (ServerApi.t_keyFile options) = false ->
      ServerApi.is_falsy (ServerApi.t_certFile options) = false ->
      exists w key cert,
        result.2 = Some w
        /\ ServerApi.t_keyFile options = Some key
        /\ ServerApi.t_certFile options = Some cert
        /\ first_call w
           = Some (ListenTls
                     (default 8443
                        (ServerApi.o_port (ServerApi.t_options options)))
                     (default "0.0.0.0"%string
                        (ServerApi.o_hostname
                           (ServerApi.t_options options)))
                     cert key))
  /\ first_call
       (ServerApi.listenAndServeTls config certFile keyFile handler
          legacy_options listen script).2
     = Some (ListenTls (default 443 (ServerApi.c_port config))
                       (default "0.0.0.0"%string
                                (ServerApi.c_hostname config))
                       certFile keyFile).
Proof.
  intros result. subst result. unfold ServerApi.serveTls.
  split; [by intros ->|]. split; [by intros -> ->|]. split.
  - intros Hk Hc. rewrite Hk, Hc.
    destruct (ServerApi.t_keyFile options) as [key|] eqn:Ek; [|done].
    destruct (ServerApi.t_certFile options) as [cert|] eqn:Ec; [|done].
    simpl.
    match goal with
    | |- context [listenAndServeTls ?a ?b ?l ?s ?w0] =>
        pose proof (listenAndServeTls_first_call a b l s w0 eq_refl eq_refl)
          as Hfirst;
        destruct (listenAndServeTls a b l s w0) as [c0 w1]
    end.
    exists w1, key, cert. by repeat split.
  - unfold ServerApi.listenAndServeTls.
    by rewrite listenAndServeTls_first_call.
Qed.

(** X11: the deprecated [listenAndServe] and [listenAndServeTls] do not
    pass [options.onError] on: whatever it is, and whatever happens to
    the server they build, a failing handler is answered by the default
    error handler, with "Internal Server Error" and status 500, while
    [serve] installs the [onError] it is given. *)
Theorem deprecated_functions_ignore_onError
    (config : ServerApi.ListenOptions) (certFile keyFile : string)
    (handler : Request -> ConnInfo -> Outcome Response)
    (options : ServerApi.ServeInit) (onError : error -> Outcome Response)
    (listen : Outcome Listener) (script : list accept_event)
    (acts : list activity) :
  let given := Some (ServerApi.mkServeInit
                       (ServerApi.o_port options)
                       (ServerApi.o_hostname options)
                       (Some onError) (ServerApi.o_signal options)) in
  s_onError
    (self (run acts
             (ServerApi.listenAndServe config handler given
                listen script).2))
  = default_onError
  /\ s_onError
       (self (run acts
                (ServerApi.listenAndServeTls config certFile keyFile handler
                   given listen script).2))
     = default_onError
  /\ s_onError
       (self (run acts
                (ServerApi.serve handler
                   (ServerApi.mkServeInit
                      (ServerApi.o_port options)
                      (ServerApi.o_hostname options)
                      (Some onError) (ServerApi.o_signal options))
                   listen script).2))
     = onError.
Proof.
  intros given. subst given.
  unfold ServerApi.listenAndServe, ServerApi.listenAndServeTls,
    ServerApi.serve.
  repeat split.
  - change (listenAndServe listen script ?w).2
      with (run [CallListenAndServe listen script] w).
    rewrite <- server_run_app.
    by destruct (config_kept_run
                   ([CallListenAndServe listen script] ++ acts)
                   (new_Server (mkServerInit (ServerApi.c_port config)
                      (ServerApi.c_hostname config) handler None)))
      as (_ & _ & _ & ->).
  - change (listenAndServeTls certFile keyFile listen script ?w).2
      with (run [CallListenAndServeTls certFile keyFile listen script] w).
    rewrite <- server_run_app.
    by destruct (config_kept_run
                   ([CallListenAndServeTls certFile keyFile listen script]
                      ++ acts)
                   (new_Server (mkServerInit (ServerApi.c_port config)
                      (ServerApi.c_hostname config) handler None)))
      as (_ & _ & _ & ->).
  - change (listenAndServe listen script ?w).2
      with (run [CallListenAndServe listen script] w).
    rewrite <- server_run_app.
    match goal with
    | |- context [run ?a ?w0] =>
        by destruct (config_kept_run a w0) as (_ & _ & _ & ->)
    end.
Qed.

(** *** app.js *)

Definition hello : Response := mkResponse "Hello world!" 200.

(** X12: the application listens on port 31337 of "0.0.0.0" before anything
    else, and, whatever has happened to its server since, as long as it is
    not closed, a connection's requests whose responses can be sent are
    each answered with "Hello world!" and status 200, in order, until the
    connection ends and is closed. *)
Theorem app_says_hello_on_31337
    (listen : Outcome Listener) (script : list accept_event)
    (acts : list activity) (c : HttpConn) (info : ConnInfo)
    (evs : list RequestEvent) (last : Outcome (option RequestEvent))
    (rest : list (Outcome (option RequestEvent))) :
  let w := run acts (App.app listen script).2 in
  closed w = false ->
  (c ∉ closedRids w) ->
  Forall (fun ev => respondWith ev hello = Returns tt) evs ->
  ends_connection last = true ->
  first_call (App.app listen script).2 = Some (Listen 31337 "0.0.0.0")
  /\ serveHttp_parked c info (arriving evs ++ last :: rest) w
     = (Normal tt,
        mkWorld (with_httpConnections (Set_delete Nat.eqb c) (self w))
                (c :: closedRids w)
                (log w ++ ((fun _ => RespondWith c hello) <$> evs)
                       ++ [HttpConnClose c])).
Proof.
  intros w Hopen Hfresh Hall Hlast. split.
  { unfold App.app, ServerApi.serve. by rewrite listenAndServe_first_call. }
  assert (Hh : s_handler (self w) = App.handleRequest).
  { subst w. unfold App.app, ServerApi.serve.
    change (listenAndServe listen script ?w0).2
      with (run [CallListenAndServe listen script] w0).
    rewrite <- server_run_app.
    match goal with
    | |- context [run ?a ?w0] =>
        by destruct (config_kept_run a w0) as (_ & _ & -> & _)
    end. }
  rewrite (serveHttp_parked_answers c info (fun _ => hello)
             (last :: rest) evs w Hopen).
  2:{ eapply Forall_impl; [exact Hall|]. intros ev Hev. simpl.
      by rewrite Hh. }
  assert (Hclose : serveHttp_parked c info (last :: rest)
                   = closeHttpConn c).
  { destruct last as [[ev|]|e|]; try done. }
  rewrite Hclose.
  unfold closeHttpConn, bind, untrackHttpConnection, modify, try_catch,
    close_resource, add_log. simpl.
  rewrite bool_decide_eq_false_2 by done. simpl.
  by rewrite <- app_assoc.
Qed.

(** *** [serveListener] and [addrs] *)



(** *** Instances *)

Definition example_listener : Listener := mkListener 3 example_addr.
Definition example_conn : Conn := mkConn 7 example_addr example_addr.
Definition example_info : ConnInfo := mkConnInfo example_addr example_addr.
Definition example_request : RequestEvent :=
  mkRequestEvent "GET /" (fun _ => Returns tt).
Definition lost_request : RequestEvent :=
  mkRequestEvent "GET /" (fun _ => Raises ConnectionReset).

(** A server with a listener and two connections. *)
Definition busy_server : world :=
  run [CallServe example_listener
         [Accepts example_conn (Some 8%nat);
          Accepts example_conn (Some 9%nat)]]
      example_server.


Lemma close_releases_every_tracked_resource_witness :
  s_listeners (self busy_server) = [example_listener]
  /\ s_httpConnections (self busy_server) = [8%nat; 9%nat]
  /\ exists w', close busy_server = (Normal tt, w')
                /\ s_listeners (self w') = []
                /\ s_httpConnections (self w') = []
                /\ (8%nat ∈ closedRids w').
Proof.
  split; [reflexivity|]. split; [reflexivity|].
  destruct (close_releases_every_tracked_resource busy_server eq_refl)
    as (w' & H1 & _ & H3 & H4 & _ & H6 & _).
  exists w'. repeat split; try assumption.
  apply H6. left.
Defined.


(** A closed server on which an accept loop is still parked. *)
Definition closed_server : world := run [CallClose] busy_server.

Lemma closed_server_stops_accepting_witness :
  accept_at AtAccept
    [Rejects ConnectionReset; Elapsed; Accepts example_conn (Some 8%nat)]
    (Some 5) closed_server
  = (Normal tt, add_log closed_server [Delay 10]).
Proof.
  exact (proj1 (proj2 (closed_server_stops_accepting closed_server (Some 5)
                         [Accepts example_conn (Some 8%nat)] example_conn
                         8%nat ConnectionReset eq_refl eq_refl))).
Defined.

(** A server whose handler always raises, with the default [onError]. *)
Definition raising_server : world :=
  new_Server (mkServerInit None None (fun _ _ => Raises InvalidData) None).

Lemma respond_falls_back_to_onError_witness :
  respond example_request 8%nat example_info raising_server
  = (Normal tt,
     add_log raising_server
       [RespondWith 8%nat (mkResponse "Internal Server Error" 500)]).
Proof.
  exact (respond_falls_back_to_onError example_request 8%nat example_info
           raising_server InvalidData
           (mkResponse "Internal Server Error" 500)
           eq_refl eq_refl eq_refl).
Defined.

Lemma respond_closes_the_connection_when_sending_fails_witness :
  exists w',
    respond lost_request 8%nat example_info busy_server = (Normal tt, w')
    /\ s_httpConnections (self w') = [9%nat]
    /\ log w' = log busy_server ++ [HttpConnClose 8%nat].
Proof.
  destruct (respond_closes_the_connection_when_sending_fails lost_request
              8%nat example_info busy_server hello ConnectionReset
              eq_refl eq_refl)
    as (w' & H1 & H2 & _).
  exists w'. split; [exact H1|].
  injection H1 as <-. split; reflexivity.
Defined.


Lemma app_says_hello_on_31337_witness :
  let w := (App.app (Returns example_listener)
              [Accepts example_conn (Some 8%nat)]).2 in
  s_httpConnections (self w) = [8%nat]
  /\ log (serveHttp_parked 8%nat example_info
            (arriving [example_request] ++ [Returns None]) w).2
     = [Listen 31337 "0.0.0.0"; ServeHttp 8%nat;
        RespondWith 8%nat hello; HttpConnClose 8%nat].
Proof.
  intros w. split; [reflexivity|].
  destruct (app_says_hello_on_31337 (Returns example_listener)
              [Accepts example_conn (Some 8%nat)] [] 8%nat example_info
              [example_request] (Returns None) [])
    as [_ H].
  - reflexivity.
  - by intros ?%elem_of_nil.
  - repeat constructor.
  - reflexivity.
  - etrans; [exact (f_equal (fun r => log r.2) H)|reflexivity].
Defined.

End ServerExtra.

(* ===================================================================== *)
(** ** pooledMap: further properties *)
(* ===================================================================== *)

Module PoolExtra.
Import Pool.
Import PoolSpec.

Lemma length_omap_filter {B} (f : nat -> option B) (P : nat -> Prop)
    `{!forall i, Decision (P i)} (l : list nat) :
  (forall i, i ∈ l -> P i <-> f i = None) ->
  length l = (length (omap f l) + length (filter P l))%nat.
Proof.
  induction l as [|i l IH]; intros HP; [done|].
  csimpl. rewrite filter_cons.
  pose proof (HP i ltac:(left)) as Hi.
  assert (Hl : forall j, j ∈ l -> P j <-> f j = None)
    by (intros j Hj; apply HP; by right).
  specialize (IH Hl).
  destruct (f i) as [b|] eqn:Ef.
  - rewrite decide_False; [simpl; lia|]. intros HPi. by apply Hi in HPi.
  - rewrite decide_True; [simpl; lia|]. by apply Hi.
Qed.

Section WithTypes.
Context {T R E : Type}.
Implicit Types (st : state T R E) (t : Task T R E).

Lemma reachable_Inv limit arr (fn : T -> Settlement R E) evs st :
  run evs (pooledMap limit arr fn) = Some st -> Inv st.
Proof. intros Hrun. eapply pool_Inv_run; [apply pool_Inv_init|exact Hrun]. Qed.

(** *** The splice finds its promise *)

(** X14: whenever the reaction of a fulfilled transformation runs,
    [executing.indexOf(e)] is a valid index, never [-1] (with which
    [splice] would remove the last promise instead): exactly the promise
    [e] leaves [executing] and the others stay in order; the promise of
    a transformation that has failed is never removed. *)
Theorem splice_removes_exactly_the_finished_promise
    (limit : Z) (arr : list T) (fn : T -> Settlement R E)
    (evs : list event) (st : state T R E) (id : nat) :
  run evs (pooledMap limit arr fn) = Some st ->
  (forall v,
     progress_of st id = Some (Settled (Fulfilled v)) ->
     0 <= JsArray.indexOf (executing st) id
          < Z.of_nat (length (executing st))
     /\ executing (react id (Fulfilled v) st)
        = filter (fun e => e <> id) (executing st)
     /\ length (executing st)
        = S (length (executing (react id (Fulfilled v) st))))
  /\ (forall r,
        progress_of st id = Some (Reacted (Rejected r)) ->
        id ∈ executing st).
Proof.
  intros Hrun. pose proof (reachable_Inv _ _ _ _ _ Hrun) as HI.
  split.
  - intros v Hp.
    assert (Hin : id ∈ executing st).
    { apply executing_elem; [done|]. split.
      - by eapply progress_of_bound.
      - unfold live, is_fulfilled. by rewrite Hp. }
    pose proof (executing_NoDup st HI) as Hnd.
    destruct (indexOf_from_elem (executing st) id Hnd Hin 0)
      as (k & Hk & Hlt & Hdel).
    fold (JsArray.indexOf (executing st) id) in Hk.
    split; [lia|]. simpl.
    rewrite (splice1_indexOf _ _ Hnd Hin). split; [done|].
    rewrite <- Hdel, length_delete; [lia|].
    by apply lookup_lt_is_Some_2.
  - intros r Hp. apply executing_elem; [done|]. split.
    + by eapply progress_of_bound.
    + unfold live, is_fulfilled. by rewrite Hp.
Qed.

(** *** Inputs are pulled no faster than results are written *)

Lemma live_iff_no_value st id :
  live st id <-> tasks st !! id ≫= value_of = None.
Proof.
  unfold live, is_fulfilled, progress_of, value_of.
  destruct (tasks st !! id) as [[x [|[v|r]|[v|r]]]|]; simpl; done.
Qed.

Lemma tasks_split st :
  Inv st ->
  length (tasks st)
  = (length (fulfilled_values st) + length (executing st))%nat.
Proof.
  intros HI. rewrite (inv_executing st HI). unfold fulfilled_values.
  rewrite <- (omap_by_index value_of (tasks st)).
  rewrite <- (length_omap_filter _ (live st)); [by rewrite length_seq|].
  intros i _. apply live_iff_no_value.
Qed.

(** X15: the source is read lazily: at any moment, the number of inputs
    pulled so far exceeds the number of results written by at most
    [max(poolLimit, 1)], and by less than that whenever the loop is about
    to pull. *)
Theorem inputs_are_pulled_no_faster_than_results_are_written
    (limit : Z) (arr : list T) (fn : T -> Settlement R E)
    (evs : list event) (st : state T R E) :
  run evs (pooledMap limit arr fn) = Some st ->
  Z.of_nat (length (tasks st))
  <= Z.of_nat (length (written st)) + Z.max limit 1
  /\ (main st = ForAwait ->
      Z.of_nat (length (tasks st))
      < Z.of_nat (length (written st)) + Z.max limit 1).
Proof.
  intros Hrun. pose proof (reachable_Inv _ _ _ _ _ Hrun) as HI.
  pose proof (Tied_run limit arr fn evs _ _ (Tied_init limit arr fn) Hrun)
    as HT.
  pose proof (tasks_split st HI) as Hsplit.
  destruct (inv_written st HI) as (vs & Hperm & Hw).
  assert (Hlen : (length (fulfilled_values st) <= length (written st))%nat).
  { rewrite Hw, length_app, length_fmap, Hperm. lia. }
  pose proof (inv_bound st HI) as Hb. unfold bound in Hb.
  rewrite (tied_limit _ _ _ _ HT) in Hb.
  split; [lia|]. intros Hm.
  pose proof (inv_frame st HI) as Hf. unfold frame_inv in Hf.
  rewrite Hm in Hf. unfold bound in Hf.
  rewrite (tied_limit _ _ _ _ HT) in Hf. lia.
Qed.

(** *** How the function finishes *)









(** *** One at a time *)


















End WithTypes.

(** *** Instances *)

(** Two transformations launched, the first has succeeded and its
    reactions are due. *)
Definition first_settled : state nat nat nat :=
  {| poolLimit := 2; iteratorFn := fails_on_one; array := [];
     tasks := [mkTask 2%nat (Settled (Fulfilled 20%nat));
               mkTask 3%nat Running];
     executing := [0%nat; 1%nat];
     written := [];
     main := AwaitRace [0%nat; 1%nat] |}.

Lemma splice_removes_exactly_the_finished_promise_witness :
  executing (react 0%nat (Fulfilled 20%nat) first_settled) = [1%nat].
Proof.
  destruct (splice_removes_exactly_the_finished_promise 2 [2; 3]%nat
              fails_on_one [Pull; Pull; Settle 0%nat] first_settled 0%nat
              eq_refl) as [H _].
  destruct (H 20%nat eq_refl) as (_ & H2 & _).
  rewrite H2. reflexivity.
Defined.

Lemma inputs_are_pulled_no_faster_than_results_are_written_witness :
  Z.of_nat (length (tasks first_settled))
  <= Z.of_nat (length (written first_settled)) + Z.max 2 1.
Proof.
  exact (proj1 (inputs_are_pulled_no_faster_than_results_are_written 2
                  [2; 3]%nat fails_on_one [Pull; Pull; Settle 0%nat]
                  first_settled eq_refl)).
Defined.









End PoolExtra.

(* ===================================================================== *)
(** ** MuxAsyncIterator: further properties *)
(* ===================================================================== *)

Module MuxExtra.
Import Mux.
Import MuxSpec.

Section WithTypes.
Context {T E : Type}.
Implicit Types (st : state T E) (ev : event T E).

Lemma reachable_mux_Inv evs st :
  run evs MuxAsyncIterator = Some st -> Inv st.
Proof. intros Hrun. eapply mux_Inv_run; [apply mux_Inv_init|exact Hrun]. Qed.

Lemma completed_stays_frame evs : forall st st',
  frame st = Completed -> run evs st = Some st' -> frame st' = Completed.
Proof.
  induction evs as [|ev evs IH]; intros st st' Hfr Hrun; simpl in Hrun.
  - by inversion Hrun; subst.
  - destruct (step ev st) as [st1|] eqn:Hstep; [|done]. simpl in Hrun.
    destruct (completed_stays _ _ _ Hfr Hstep) as [Hfr1 _].
    by eapply IH.
Qed.

(** *** Values are handed on in the order they arrive *)

(** The values the sources have delivered, in the order their pulls
    settled. *)
Definition delivered (evs : list (event T E)) : list T :=
  omap (fun ev => match ev with Settle _ (Value v) => Some v | _ => None end)
       evs.

(** How many queued values the consumer has been given in this cycle. *)
Definition passed st : nat :=
  match frame st with AtYield i => S i | _ => 0%nat end.

(** The queued values the consumer has not been given yet. *)
Definition pending st : list T := value <$> drop (passed st) (yields st).

Definition handed (ds : list T) st : Prop :=
  emitted st ++ (Yield <$> pending st) = Yield <$> ds.

Definition ends_with (ds : list T) st : Prop :=
  exists out, emitted st = (Yield <$> ds) ++ [out]
              /\ (out = Return \/ exists e, out = Throw e).

Definition handed_or_ended (ds : list T) st : Prop :=
  match frame st with
  | Completed => ends_with ds st
  | _ => handed ds st
  end.

Lemma end_of_cycle_handed st ds :
  emitted st = Yield <$> ds -> frame st <> Completed ->
  handed_or_ended ds (end_of_cycle st).
Proof.
  intros Hem Hfr. unfold end_of_cycle. rewrite raise_throws_eq.
  destruct (throws st) as [|e rest].
  - unfold loop_head. simpl. destruct (0 <? iteratorCount st).
    + unfold handed_or_ended, handed, pending, passed. simpl.
      by rewrite app_nil_r.
    + unfold handed_or_ended. simpl. exists Return. simpl.
      split; [by rewrite Hem|by left].
  - unfold handed_or_ended. simpl. exists (Throw e). simpl.
    split; [by rewrite Hem|right; by exists e].
Qed.

Lemma for_loop_handed i st ds :
  frame st <> Completed ->
  emitted st ++ (Yield <$> (value <$> drop i (yields st))) = Yield <$> ds ->
  handed_or_ended ds (for_loop i st).
Proof.
  intros Hfr Hh. unfold for_loop.
  destruct (yields st !! i) as [y|] eqn:Hy.
  - unfold handed_or_ended, handed, pending, passed. simpl.
    rewrite (drop_S _ _ _ Hy) in Hh. csimpl in Hh.
    by rewrite <- app_assoc.
  - apply lookup_ge_None in Hy. rewrite drop_ge in Hh by done.
    csimpl in Hh. rewrite app_nil_r in Hh.
    by apply end_of_cycle_handed.
Qed.

Lemma handed_step ev st st' ds :
  Inv st -> frame st <> Completed -> handed ds st ->
  step ev st = Some st' ->
  handed_or_ended (ds ++ delivered [ev]) st'.
Proof.
  intros HI Hlive Hh Hstep.
  destruct ev as [|it r|k| |]; simpl in Hstep.
  - inversion Hstep; subst. unfold delivered. csimpl. rewrite app_nil_r.
    unfold handed_or_ended. simpl.
    destruct (frame st) eqn:Hfr; try done;
      unfold handed, pending, passed in *; simpl; by rewrite Hfr in *.
  - case_bool_decide; [|done]. inversion Hstep; subst.
    assert (Hle : (passed st <= length (yields st))%nat).
    { destruct HI as [_ Hf]. unfold passed.
      destruct (frame st); lia. }
    unfold handed_or_ended. simpl.
    assert (Hgoal : handed (ds ++ delivered [Settle it r])
                      (callIteratorNext_resume it r st)).
    { unfold handed, pending in *.
      change (passed (callIteratorNext_resume it r st)) with (passed st).
      unfold delivered. simpl. destruct r as [v| |e]; csimpl.
      - rewrite drop_app_le by done.
        rewrite !fmap_app, app_assoc, Hh. done.
      - by rewrite app_nil_r.
      - by rewrite app_nil_r. }
    by destruct (frame st) eqn:Hfr.
  - destruct (Deferred.resolve_resume k (signal st)) as [[c d]|]; [|done].
    inversion Hstep; subst. unfold delivered. csimpl. rewrite app_nil_r.
    unfold handed_or_ended. simpl.
    destruct (frame st) eqn:Hfr; try done;
      unfold handed, pending, passed in *; simpl; by rewrite Hfr in *.
  - unfold delivered. csimpl. rewrite app_nil_r.
    destruct HI as [Hs Hf]. destruct (frame st) eqn:Hfr; try done.
    + inversion Hstep; subst. destruct Hf as [Hc _].
      unfold handed, pending, passed in Hh. rewrite Hfr in Hh.
      unfold loop_head.
      destruct (Z.ltb_spec 0 (iteratorCount st)) as [Hpos|Hle].
      * unfold handed_or_ended, handed, pending, passed. simpl. done.
      * unfold handed_or_ended. simpl. exists Return. simpl.
        split; [|by left].
        assert (Hy : yields st = []).
        { unfold accounted in Hc. apply nil_length_inv. lia. }
        rewrite Hy in Hh. csimpl in Hh. rewrite app_nil_r in Hh.
        by rewrite Hh.
    + destruct (yields st !! i) as [y|] eqn:Hy; [|done].
      inversion Hstep; subst.
      unfold handed, pending, passed in Hh. rewrite Hfr in Hh.
      apply for_loop_handed; simpl; [by rewrite Hfr|done].
  - unfold delivered. csimpl. rewrite app_nil_r.
    destruct HI as [[Hnr _] Hf]. destruct (frame st) eqn:Hfr; try done.
    destruct (Deferred.promise (signal st)) as [|u|e] eqn:Hp; [done| |].
    + inversion Hstep; subst.
      unfold handed, pending, passed in Hh. rewrite Hfr in Hh.
      apply for_loop_handed; [by rewrite Hfr|done].
    + by destruct (Hnr e).
Qed.

Lemma handed_run evs : forall st st' ds,
  Inv st -> frame st <> Completed -> handed ds st ->
  run evs st = Some st' -> frame st' <> Completed ->
  handed (ds ++ delivered evs) st'.
Proof.
  induction evs as [|ev evs IH]; intros st st' ds HI Hlive Hh Hrun Hlive';
    simpl in Hrun.
  - inversion Hrun; subst. unfold delivered. csimpl. by rewrite app_nil_r.
  - destruct (step ev st) as [st1|] eqn:Hstep; [|done]. simpl in Hrun.
    assert (Hlive1 : frame st1 <> Completed).
    { intros Hc. by apply Hlive', (completed_stays_frame evs st1). }
    pose proof (handed_step ev st st1 ds HI Hlive Hh Hstep) as H1.
    unfold handed_or_ended in H1.
    assert (H1' : handed (ds ++ delivered [ev]) st1)
      by (by destruct (frame st1)).
    pose proof (IH st1 st' _ (mux_Inv_step _ _ _ HI Hstep) Hlive1 H1' Hrun
                  Hlive') as H2.
    change (ev :: evs) with ([ev] ++ evs).
    unfold delivered in *. by rewrite omap_app, app_assoc.
Qed.

(** X19: as long as the generator has not ended, what the consumer has
    received, followed by the values still queued for it, is exactly the
    sequence of values the sources have delivered, in the order their
    pulls settled: nothing is lost, duplicated or reordered.  When the
    generator ends, by returning or by throwing, every value delivered
    until then has been handed on. *)
Theorem values_are_handed_on_in_arrival_order
    (evs : list (event T E)) (st : state T E) :
  run evs MuxAsyncIterator = Some st ->
  frame st <> Completed ->
  emitted st ++ (Yield <$> pending st) = Yield <$> delivered evs
  /\ (forall ev st',
        step ev st = Some st' -> frame st' = Completed ->
        exists out,
          emitted st' = (Yield <$> delivered evs) ++ [out]
          /\ (out = Return \/ exists e, out = Throw e)).
Proof.
  intros Hrun Hlive.
  pose proof (reachable_mux_Inv evs st Hrun) as HI.
  assert (Hh : handed (delivered evs) st).
  { apply (handed_run evs MuxAsyncIterator st [] mux_Inv_init); try done. }
  split; [exact Hh|].
  intros ev st' Hstep Hend.
  pose proof (handed_step ev st st' _ HI Hlive Hh Hstep) as H1.
  unfold handed_or_ended in H1. rewrite Hend in H1.
  assert (Hnone : delivered [ev] = []).
  { destruct ev as [|it r|k| |]; try done.
    simpl in Hstep. case_bool_decide; [|done]. inversion Hstep; subst.
    simpl in Hend. done. }
  by rewrite Hnone, app_nil_r in H1.
Qed.

(** *** One pull per source *)

(** The index of the queued value the drain loop is at. *)
Definition at_index st : nat :=
  match frame st with AtYield i => i | _ => 0%nat end.

(** The sources the multiplexer is waiting for or holds a value of: those
    with a pull outstanding, and those whose queued value the drain loop
    has not passed. *)
Definition awaited st : list nat :=
  pulls st ++ (iterator <$> drop (at_index st) (yields st)).

Definition distinct (fr : nat) (l : list nat) : Prop :=
  NoDup l /\ Forall (fun it => (it < fr)%nat) l.

Definition single st : Prop :=
  frame st <> Completed -> distinct (fresh st) (awaited st).

Lemma remove_first_perm it (l : list nat) :
  it ∈ l -> l ≡ₚ it :: remove_first it l.
Proof.
  induction l as [|x l IH]; intros Hin; [by apply elem_of_nil in Hin|].
  simpl. destruct (Nat.eqb_spec x it) as [->|Hne]; [done|].
  apply elem_of_cons in Hin as [->|Hin]; [done|].
  rewrite (IH Hin) at 1. apply Permutation_swap.
Qed.

Lemma distinct_perm fr (l k : list nat) :
  l ≡ₚ k -> distinct fr l -> distinct fr k.
Proof. intros Hp [Hnd Hall]. split; by rewrite <- Hp. Qed.

Lemma distinct_tail fr x (l : list nat) :
  distinct fr (x :: l) -> distinct fr l.
Proof.
  intros [Hnd Hall]. apply NoDup_cons in Hnd as [_ Hnd].
  apply Forall_cons in Hall as [_ Hall]. done.
Qed.

Lemma distinct_add fr (l k : list nat) :
  distinct fr (l ++ k) -> distinct (S fr) ((l ++ [fr]) ++ k).
Proof.
  intros [Hnd Hall].
  apply (distinct_perm _ (fr :: l ++ k)).
  { rewrite <- app_assoc. simpl. apply Permutation_middle. }
  split.
  - apply NoDup_cons. split; [|done]. intros Hx.
    rewrite Forall_forall in Hall. apply Hall in Hx. lia.
  - apply Forall_cons. split; [lia|].
    eapply Forall_impl; [exact Hall|]. simpl. lia.
Qed.

Lemma distinct_settle fr it (l k : list nat) :
  it ∈ l -> distinct fr (l ++ k) ->
  distinct fr (remove_first it l ++ k ++ [it])
  /\ distinct fr (remove_first it l ++ k).
Proof.
  intros Hin Hd.
  apply (distinct_perm _ _ (it :: remove_first it l ++ k)) in Hd.
  2:{ by rewrite (remove_first_perm it l Hin) at 1. }
  split; [|by apply distinct_tail in Hd].
  rewrite app_assoc.
  apply (distinct_perm _ _ _ (Permutation_cons_append _ _)). exact Hd.
Qed.

Lemma single_end_of_cycle st :
  distinct (fresh st) (pulls st) -> single (end_of_cycle st).
Proof.
  intros Hd. unfold single, end_of_cycle. rewrite raise_throws_eq.
  destruct (throws st) as [|e rest]; [|done].
  unfold loop_head. simpl. destruct (0 <? iteratorCount st); [|done].
  intros _. unfold awaited, at_index. simpl. by rewrite app_nil_r.
Qed.

Lemma single_for_loop i st :
  distinct (fresh st) (pulls st ++ (iterator <$> drop i (yields st))) ->
  single (for_loop i st).
Proof.
  intros Hd. unfold for_loop.
  destruct (yields st !! i) as [y|] eqn:Hy.
  - by intros _.
  - apply lookup_ge_None in Hy. rewrite drop_ge in Hd by done.
    csimpl in Hd. rewrite app_nil_r in Hd. by apply single_end_of_cycle.
Qed.

Lemma at_index_le st : Inv st -> (at_index st <= length (yields st))%nat.
Proof.
  intros [_ Hf]. unfold at_index. destruct (frame st); lia.
Qed.

Lemma single_step ev st st' :
  Inv st -> single st -> step ev st = Some st' -> single st'.
Proof.
  intros HI HS Hstep.
  pose proof (at_index_le st HI) as Hle.
  destruct ev as [|it r|k| |]; simpl in Hstep.
  - inversion Hstep; subst. intros Hlive. specialize (HS Hlive).
    unfold awaited in *.
    change (at_index (add st)) with (at_index st). simpl.
    by apply distinct_add.
  - case_bool_decide as Hin; [|done]. inversion Hstep; subst.
    intros Hlive. specialize (HS Hlive). unfold awaited in *.
    change (at_index (callIteratorNext_resume it r st)) with (at_index st).
    destruct (distinct_settle _ it _ _ Hin HS) as [H1 H2].
    simpl. destruct r as [v| |e]; [|done..].
    rewrite drop_app_le by done. by rewrite fmap_app.
  - destruct (Deferred.resolve_resume k (signal st)) as [[c d]|]; [|done].
    inversion Hstep; subst. intros Hlive. by specialize (HS Hlive).
  - destruct (frame st) eqn:Hfr; try done.
    + inversion Hstep; subst. unfold single, loop_head.
      destruct (0 <? iteratorCount st); [|done].
      intros _. unfold single, awaited, at_index in *. simpl.
      rewrite Hfr in HS. by apply HS.
    + destruct (yields st !! i) as [y|] eqn:Hy; [|done].
      inversion Hstep; subst. apply single_for_loop. simpl.
      unfold single, awaited, at_index in HS. rewrite Hfr in HS.
      specialize (HS ltac:(done)).
      rewrite (drop_S _ _ _ Hy) in HS. csimpl in HS.
      by rewrite <- app_assoc.
  - destruct (frame st) eqn:Hfr; try done.
    destruct (Deferred.promise (signal st)) as [|u|e]; try done;
      inversion Hstep; subst; [|done].
    apply single_for_loop.
    unfold single, awaited, at_index in HS. rewrite Hfr in HS.
    by apply HS.
Qed.

Lemma single_run evs : forall st st',
  Inv st -> single st -> run evs st = Some st' -> single st'.
Proof.
  induction evs as [|ev evs IH]; intros st st' HI HS Hrun; simpl in Hrun.
  - by inversion Hrun; subst.
  - destruct (step ev st) as [st1|] eqn:Hstep; [|done]. simpl in Hrun.
    eapply (IH st1); [|by eapply single_step|exact Hrun].
    by eapply mux_Inv_step.
Qed.

(** X20: as long as the generator has not ended, no source has two pulls
    outstanding, a source whose value is queued is not being pulled, and
    [iteratorCount] is the number of sources with a pull outstanding,
    plus the queued values not yet passed on, plus the failures recorded:
    it never goes below zero. *)
Theorem a_source_is_pulled_once_at_a_time
    (evs : list (event T E)) (st : state T E) :
  run evs MuxAsyncIterator = Some st ->
  frame st <> Completed ->
  NoDup (pulls st)
  /\ (forall y, y ∈ drop (at_index st) (yields st) ->
                iterator y ∉ pulls st)
  /\ NoDup (iterator <$> drop (at_index st) (yields st))
  /\ iteratorCount st
     = Z.of_nat (length (pulls st)
                 + length (drop (at_index st) (yields st))
                 + length (throws st))
  /\ 0 <= iteratorCount st.
Proof.
  intros Hrun Hlive.
  pose proof (reachable_mux_Inv evs st Hrun) as HI.
  assert (HS : single (@MuxAsyncIterator T E)).
  { intros _. split; [apply NoDup_nil_2|apply Forall_nil_2]. }
  destruct (single_run evs _ st mux_Inv_init HS Hrun Hlive) as [Hnd _].
  unfold awaited in Hnd. apply NoDup_app in Hnd as (Hp & Hdis & Hq).
  assert (Hcount : iteratorCount st
     = Z.of_nat (length (pulls st)
                 + length (drop (at_index st) (yields st))
                 + length (throws st))).
  { destruct HI as [_ Hf]. unfold at_index, accounted in *.
    rewrite length_drop. destruct (frame st); try done; lia. }
  split; [done|]. split.
  - intros y Hy Hin. apply (Hdis _ Hin).
    apply list_elem_of_fmap. by exists y.
  - split; [done|]. split; [done|lia].
Qed.

(** *** After the end *)



End WithTypes.

(** *** Instances *)

(** Two sources; the second delivers first; the consumer has been given
    both values and the second source is being pulled again. *)
Definition two_sources_run : list (event nat nat) :=
  [Add; Add; Next; Settle 1%nat (Value 7%nat); Settle 0%nat (Value 5%nat);
   Tick 0%nat; Wake; Next].

Definition two_sources_state : state nat nat :=
  {| iteratorCount := 2;
     yields := [mkYielded 1%nat 7%nat; mkYielded 0%nat 5%nat];
     throws := [];
     signal := Deferred.mk Deferred.fulfilled (Deferred.FulfilledWith tt)
                 [Deferred.Plain tt];
     pulls := [1%nat]; fresh := 2%nat; frame := AtYield 1;
     emitted := [Yield 7%nat; Yield 5%nat] |}.

Lemma values_are_handed_on_in_arrival_order_witness :
  emitted two_sources_state ++ (Yield <$> pending two_sources_state)
  = [Yield 7%nat; Yield 5%nat].
Proof.
  refine (proj1 (values_are_handed_on_in_arrival_order two_sources_run
                   two_sources_state eq_refl _)).
  discriminate.
Defined.

Lemma a_source_is_pulled_once_at_a_time_witness :
  iteratorCount two_sources_state = 2 /\ NoDup (pulls two_sources_state).
Proof.
  destruct (a_source_is_pulled_once_at_a_time two_sources_run
              two_sources_state eq_refl) as (H1 & _ & _ & H4 & _).
  - discriminate.
  - split; [exact H4|exact H1].
Defined.




End MuxExtra.

(* ===================================================================== *)
(** ** deferred: further properties *)
(* ===================================================================== *)

Module DeferredExtra.
Import Deferred.
Import DeferredSpec.

Section WithTypes.
Context {V E : Type}.
Implicit Types (d : t V E) (c : call V E).

(** X22: the promise settles at most once: once it is fulfilled or
    rejected, no sequence of further calls of [resolve] and [reject], and
    no parked [resolve] running on, changes its settlement. *)
Theorem promise_keeps_its_first_settlement
    (cs : list (call V E)) (d d' : t V E) :
  promise d <> Unsettled ->
  run cs d = Some d' ->
  promise d' = promise d.
Proof. apply promise_settles_once_run. Qed.





End WithTypes.

(** *** Instances *)

Lemma promise_keeps_its_first_settlement_witness :
  exists d' : t nat nat,
    run [Reject 2%nat; Resolve (Plain 3%nat); Resume 0%nat]
        (mk fulfilled (FulfilledWith 1%nat) [])
    = Some d'
    /\ state d' = fulfilled
    /\ promise d' = FulfilledWith 1%nat.
Proof.
  exists (mk fulfilled (FulfilledWith 1%nat) []).
  split; [reflexivity|]. split; [reflexivity|].
  refine (promise_keeps_its_first_settlement
            [Reject 2%nat; Resolve (Plain 3%nat); Resume 0%nat]
            (mk fulfilled (FulfilledWith 1%nat) [])
            (mk fulfilled (FulfilledWith 1%nat) []) _ eq_refl).
  discriminate.
Defined.



End DeferredExtra.
